(** * deploy_vps.py: a shallow embedding of the deployment script

    The script opens one SSH session, runs [npm run build] while streaming its
    output, restarts the process manager entry when the build exited with
    status 0, queries the process manager status, and closes the session.

    The remote host and the SSH library are the environment of the script:
    they are modelled by a [remote] value that scripts what [connect],
    [exec_command], the channel file reads and [recv_exit_status] answer.
    A run of the script yields the log of everything it did to the session
    and to the console, and how the process ended.

    The console is [sys.stdout] rewrapped as UTF-8 with replacement on
    errors, so writing a text to it never fails: [print], [write] and
    [flush] only add to the log. *)

From Stdlib Require Import String Ascii List NArith ZArith Bool Lia.
From Stdlib.Strings Require Import Byte.
From Stdlib Require Import DecimalString.
Import ListNotations.

Local Open Scope list_scope.

(** ** Bytes and text *)

(** A Python [bytes] value. *)
Definition bytes := list byte.

(** A Python [str] value: its sequence of Unicode code points. *)
Definition text := list N.

Module Utf8.

(** U+FFFD, what [errors='replace'] puts in place of undecodable input. *)
Definition REPLACEMENT : N := 0xFFFD%N.

Local Open Scope N_scope.

(** [(ch & 0xC0) == 0x80] *)
Definition is_continuation (ch : N) : bool :=
  N.land ch 0xC0 =? 0x80.

Definition cp2 (ch ch2 : N) : N :=
  N.shiftl ch 6 + ch2 - (N.shiftl 0xC0 6 + 0x80).

Definition cp3 (ch ch2 ch3 : N) : N :=
  N.shiftl ch 12 + N.shiftl ch2 6 + ch3
  - (N.shiftl 0xE0 12 + N.shiftl 0x80 6 + 0x80).

Definition cp4 (ch ch2 ch3 ch4 : N) : N :=
  N.shiftl ch 18 + N.shiftl ch2 12 + N.shiftl ch3 6 + ch4
  - (N.shiftl 0xF0 18 + N.shiftl 0x80 12 + N.shiftl 0x80 6 + 0x80).

(** [bytes.decode('utf-8', errors='replace')] as the interpreter's decoder
    does it, on the numeric values of the bytes.  A byte that cannot start a
    sequence is replaced on its own; a sequence broken by a byte that is not
    the continuation it needs is replaced up to that byte, and decoding
    resumes at the offending byte; a sequence cut short by the end of the
    input is replaced as a whole. *)
Fixpoint decode_codes (s : list N) : text :=
  match s with
  | [] => []
  | ch :: s1 =>
    if ch <? 0x80 then ch :: decode_codes s1
    else if ch <? 0xC2 then REPLACEMENT :: decode_codes s1
    else if ch <? 0xE0 then
      match s1 with
      | [] => [REPLACEMENT]
      | ch2 :: s2 =>
        if is_continuation ch2 then cp2 ch ch2 :: decode_codes s2
        else REPLACEMENT :: decode_codes s1
      end
    else if ch <? 0xF0 then
      match s1 with
      | [] => [REPLACEMENT]
      | ch2 :: s2 =>
        if negb (is_continuation ch2)
           || (if ch2 <? 0xA0 then ch =? 0xE0 else ch =? 0xED)
        then REPLACEMENT :: decode_codes s1
        else
          match s2 with
          | [] => [REPLACEMENT]
          | ch3 :: s3 =>
            if is_continuation ch3 then cp3 ch ch2 ch3 :: decode_codes s3
            else REPLACEMENT :: decode_codes s2
          end
      end
    else if ch <? 0xF5 then
      match s1 with
      | [] => [REPLACEMENT]
      | ch2 :: s2 =>
        if negb (is_continuation ch2)
           || (if ch2 <? 0x90 then ch =? 0xF0 else ch =? 0xF4)
        then REPLACEMENT :: decode_codes s1
        else
          match s2 with
          | [] => [REPLACEMENT]
          | ch3 :: s3 =>
            if negb (is_continuation ch3) then REPLACEMENT :: decode_codes s2
            else
              match s3 with
              | [] => [REPLACEMENT]
              | ch4 :: s4 =>
                if is_continuation ch4
                then cp4 ch ch2 ch3 ch4 :: decode_codes s4
                else REPLACEMENT :: decode_codes s3
              end
          end
      end
    else REPLACEMENT :: decode_codes s1
  end.

(** [chunk.decode('utf-8', errors='replace')] *)
Definition decode (b : bytes) : text :=
  decode_codes (map Byte.to_N b).

End Utf8.

(** A string literal of the script, read as the interpreter reads the
    UTF-8 source file. *)
Definition lit (s : string) : text :=
  Utf8.decode (list_byte_of_string s).

(** The escape [\n] of the script's literals. *)
Definition nl : text := [10%N].

(** [str(n)] for an [int], as an f-string field renders it. *)
Definition str_of_int (n : Z) : text :=
  lit (NilZero.string_of_int (Z.to_int n)).

(** ** The environment: the remote host behind the SSH library *)

(** The fatal error kinds a session operation can raise. *)
Inductive fatal : Type :=
| ConnectionError
| CommandTimeout
| ConnectionLost.

(** What the channel hands over when the file object asks it for more: some
    bytes (never none: an empty answer is the end of the stream, which is
    the end of the list), or a failure. *)
Inductive arrival : Type :=
| Data (b : byte) (bs : bytes)
| Fault (e : fatal).

(** What the remote host does with one command: whether opening the channel
    fails, what the combined output stream delivers, and the exit status
    the channel reports. *)
Record channel : Type := {
  open_fault : option fatal;
  arrivals : list arrival;
  exit_status : Z
}.

Record remote : Type := {
  connect_fault : option fatal;
  exec : string -> channel
}.

(** The file object [exec_command] returns for the command's output: the
    command it belongs to, the bytes read from the channel and not yet
    handed to the caller, and what the channel still has to deliver. *)
Record file : Type := {
  fcmd : string;
  rbuffer : bytes;
  pending : list arrival;
  fstatus : Z
}.

(** ** The log of a run *)

Inductive event : Type :=
| SetPolicy
| Connect (host user pass : string) (timeout : Z) (r : option fatal)
| Exec (cmd : string) (timeout : Z) (r : option fatal)
| Read (cmd : string) (size : option nat) (r : fatal + bytes)
| RecvExit (cmd : string) (status : Z)
| Close
| Print (t : text)
| Write (t : text)
| Flush.

Definition trace := list event.

Inductive result (A : Type) : Type :=
| Ok (a : A)
| Raised (e : fatal)
| OutOfFuel.
Arguments Ok {A} a.
Arguments Raised {A} e.
Arguments OutOfFuel {A}.

(** A computation of the script: what it logged, and how it ended.  An
    exception ends the computation where it is raised: the script has no
    handler. *)
Definition M (A : Type) : Type := (trace * result A)%type.

Definition ret {A : Type} (a : A) : M A := ([], Ok a).

Definition bind {A B : Type} (m : M A) (k : A -> M B) : M B :=
  match m with
  | (t, Ok a) => let (t', r) := k a in (t ++ t', r)
  | (t, Raised e) => (t, Raised e)
  | (t, OutOfFuel) => (t, OutOfFuel)
  end.

Definition emit (e : event) : M unit := ([e], Ok tt).

Definition raise {A : Type} (e : fatal) : M A := ([], Raised e).

Declare Scope script_scope.
Delimit Scope script_scope with script.
Notation "x <- c1 ;; c2" := (bind c1 (fun x => c2))
  (at level 61, c1 at next level, right associativity) : script_scope.
Notation "' pat <- c1 ;; c2" := (bind c1 (fun x => match x with pat => c2 end))
  (at level 61, pat pattern, c1 at next level, right associativity) : script_scope.
Notation "c1 ;; c2" := (bind c1 (fun _ => c2))
  (at level 61, right associativity) : script_scope.
Local Open Scope script_scope.

(** ** The operations the script calls *)

Definition print (t : text) : M unit := emit (Print t).
Definition write (t : text) : M unit := emit (Write t).
Definition flush : M unit := emit Flush.

Definition set_missing_host_key_policy : M unit := emit SetPolicy.

Definition connect (r : remote) (host user pass : string) (timeout : Z) : M unit :=
  emit (Connect host user pass timeout (connect_fault r)) ;;
  match connect_fault r with
  | Some e => raise e
  | None => ret tt
  end.

Definition exec_command (r : remote) (cmd : string) (timeout : Z) : M file :=
  let c := exec r cmd in
  emit (Exec cmd timeout (open_fault c)) ;;
  match open_fault c with
  | Some e => raise e
  | None =>
    ret {| fcmd := cmd; rbuffer := []; pending := arrivals c;
           fstatus := exit_status c |}
  end.

(** The file object of the SSH library is buffered: a sized read takes from
    the channel until the buffer holds [size] bytes or the stream has ended.
    A failure of the channel while it waits is raised. *)
Fixpoint fill (size : nat) (buf : bytes) (pend : list arrival)
  : fatal + (bytes * list arrival) :=
  if (size <=? length buf)%nat then inr (buf, pend)
  else
    match pend with
    | [] => inr (buf, [])
    | Data b bs :: rest => fill size (buf ++ b :: bs) rest
    | Fault e :: _ => inl e
    end.

(** Without a size the file object reads until the stream has ended. *)
Fixpoint drain (buf : bytes) (pend : list arrival) : fatal + bytes :=
  match pend with
  | [] => inr buf
  | Data b bs :: rest => drain (buf ++ b :: bs) rest
  | Fault e :: _ => inl e
  end.

(** [f.read(size)] and [f.read()]: at most [size] bytes, fewer only at the
    end of the stream; everything up to the end of the stream when no size
    is given.  A failure of the channel is raised to the caller. *)
Definition read (size : option nat) (f : file) : M (bytes * file) :=
  match size with
  | Some n =>
    match fill n (rbuffer f) (pending f) with
    | inl e => emit (Read (fcmd f) size (inl e)) ;; raise e
    | inr (buf, pend) =>
      emit (Read (fcmd f) size (inr (firstn n buf))) ;;
      ret (firstn n buf,
           {| fcmd := fcmd f; rbuffer := skipn n buf; pending := pend;
              fstatus := fstatus f |})
    end
  | None =>
    match drain (rbuffer f) (pending f) with
    | inl e => emit (Read (fcmd f) size (inl e)) ;; raise e
    | inr data =>
      emit (Read (fcmd f) size (inr data)) ;;
      ret (data,
           {| fcmd := fcmd f; rbuffer := []; pending := [];
              fstatus := fstatus f |})
    end
  end.

Definition recv_exit_status (f : file) : M Z :=
  emit (RecvExit (fcmd f) (fstatus f)) ;; ret (fstatus f).

Definition close : M unit := emit Close.

(** ** The script *)

Definition hostname : string := "187.77.214.236".
Definition username : string := "root".
Definition password : string := "Eduardo0523/".

Definition build_cmd : string := "cd /var/www/gst && npm run build 2>&1".
Definition restart_cmd : string := "pm2 restart gst 2>&1".
Definition status_cmd : string := "pm2 status 2>&1".

(** The size the loop of step 1 asks for on each read. *)
Definition chunk_size : nat := 4096.

(** The [while True] loop of step 1: read at most 4096 bytes, stop at the
    empty chunk, otherwise decode, write and flush.  [fuel] bounds the number
    of turns; [step1] gives the loop one turn more than the stream has bytes,
    and every turn but the last hands out at least one. *)
Fixpoint stream_loop (fuel : nat) (stdout : file) : M file :=
  match fuel with
  | O => ([], OutOfFuel)
  | S fuel' =>
    '(chunk, stdout') <- read (Some chunk_size) stdout ;;
    match chunk with
    | [] => ret stdout'
    | _ :: _ =>
      write (Utf8.decode chunk) ;;
      flush ;;
      stream_loop fuel' stdout'
    end
  end.

(** The bytes a file object can still hand out. *)
Fixpoint pending_size (pend : list arrival) : nat :=
  match pend with
  | [] => 0
  | Data b bs :: rest => S (length bs) + pending_size rest
  | Fault _ :: rest => pending_size rest
  end.

Definition available (f : file) : nat :=
  length (rbuffer f) + pending_size (pending f).

(** Step 1: the build, streamed to the console; its result is the exit
    status the script keeps in [exit_code]. *)
Definition step1 (r : remote) : M Z :=
  print (lit "=== STEP 1: npm run build ===") ;;
  stdout <- exec_command r build_cmd 720 ;;
  stdout <- stream_loop (S (available stdout)) stdout ;;
  exit_code <- recv_exit_status stdout ;;
  print (nl ++ lit "[BUILD EXIT CODE: " ++ str_of_int exit_code ++ lit "]") ;;
  ret exit_code.

(** Step 2: the restart, read to the end and printed at once. *)
Definition step2 (r : remote) : M unit :=
  print (nl ++ lit "=== STEP 2: pm2 restart gst ===") ;;
  out2 <- exec_command r restart_cmd 30 ;;
  '(data, out2) <- read None out2 ;;
  print (Utf8.decode data) ;;
  status <- recv_exit_status out2 ;;
  print (lit "[PM2 EXIT: " ++ str_of_int status ++ lit "]").

(** Step 3: the status query, read to the end and printed at once. *)
Definition step3 (r : remote) : M unit :=
  print (nl ++ lit "=== STEP 3: pm2 status ===") ;;
  out3 <- exec_command r status_cmd 15 ;;
  '(data, _) <- read None out3 ;;
  print (Utf8.decode data).

Definition build_failed : text := lit "[BUILD FAILED — skipping restart]".

(** The steps between [connect] and [close]. *)
Definition pipeline (r : remote) : M unit :=
  exit_code <- step1 r ;;
  (if (exit_code =? 0)%Z then step2 r else print build_failed) ;;
  step3 r.

Definition deploy (r : remote) : M unit :=
  set_missing_host_key_policy ;;
  print (lit "Connecting to VPS...") ;;
  connect r hostname username password 15 ;;
  print (lit "Connected." ++ nl) ;;
  pipeline r ;;
  close ;;
  print (lit "Done.").

(** How the process ends: the interpreter exits with 0 when the script runs
    to its end, and with 1 on an uncaught exception. *)
Definition process_exit_code {A : Type} (r : result A) : option Z :=
  match r with
  | Ok _ => Some 0%Z
  | Raised _ => Some 1%Z
  | OutOfFuel => None
  end.

(** ** Scripted remotes *)

(** A command that opens, prints nothing and exits with [st]. *)
Definition quiet (st : Z) : channel :=
  {| open_fault := None; arrivals := []; exit_status := st |}.

(** A command that opens, delivers [arr] and exits with [st]. *)
Definition talking (arr : list arrival) (st : Z) : channel :=
  {| open_fault := None; arrivals := arr; exit_status := st |}.

(** A remote that answers the three commands of the script with [b], [rs]
    and [s], and any other command like the status query. *)
Definition scripted (cf : option fatal) (b rs s : channel) : remote :=
  {| connect_fault := cf;
     exec := fun cmd =>
       if String.eqb cmd build_cmd then b
       else if String.eqb cmd restart_cmd then rs
       else s |}.

(** ** What a log shows *)

(** The commands issued on the session, in order. *)
Fixpoint execs (t : trace) : list string :=
  match t with
  | [] => []
  | Exec cmd _ _ :: t' => cmd :: execs t'
  | _ :: t' => execs t'
  end.

(** How often [cmd] was issued. *)
Definition issued (cmd : string) (t : trace) : nat :=
  count_occ string_dec (execs t) cmd.

(** How often the transport was released. *)
Fixpoint closes (t : trace) : nat :=
  match t with
  | [] => 0
  | Close :: t' => S (closes t')
  | _ :: t' => closes t'
  end.

(** The exception an operation raised, when it did. *)
Definition raised_by (ev : event) : option fatal :=
  match ev with
  | Connect _ _ _ _ (Some e) => Some e
  | Exec _ _ (Some e) => Some e
  | Read _ _ (inl e) => Some e
  | _ => None
  end.

(** An operation on the session or on one of its channels. *)
Definition session_op (ev : event) : bool :=
  match ev with
  | SetPolicy | Connect _ _ _ _ _ | Exec _ _ _ | Read _ _ _
  | RecvExit _ _ | Close => true
  | Print _ | Write _ | Flush => false
  end.

(** A read of [cmd]'s output. *)
Definition reads_of (cmd : string) (ev : event) : bool :=
  match ev with
  | Read c _ _ => String.eqb c cmd
  | _ => false
  end.

(** A read of [cmd]'s output that returned at the end of the stream: a
    sized read that came back empty, or an unsized read that came back. *)
Definition drained_by (cmd : string) (ev : event) : bool :=
  match ev with
  | Read c (Some _) (inr []) => String.eqb c cmd
  | Read c None (inr _) => String.eqb c cmd
  | _ => false
  end.

(** The text on the console: [print] ends its text with a newline. *)
Fixpoint console (t : trace) : text :=
  match t with
  | [] => []
  | Print x :: t' => x ++ nl ++ console t'
  | Write x :: t' => x ++ console t'
  | _ :: t' => console t'
  end.

(** The text given to [sys.stdout.write], which only the streaming loop of
    step 1 calls. *)
Fixpoint streamed (t : trace) : text :=
  match t with
  | [] => []
  | Write x :: t' => x ++ streamed t'
  | _ :: t' => streamed t'
  end.

(** The raw bytes a stream delivers before it ends or fails. *)
Fixpoint stream_bytes (arr : list arrival) : bytes :=
  match arr with
  | [] => []
  | Data b bs :: rest => b :: bs ++ stream_bytes rest
  | Fault _ :: _ => []
  end.

(** Whether a stream ends without a failure. *)
Fixpoint fault_free (arr : list arrival) : bool :=
  match arr with
  | [] => true
  | Data _ _ :: rest => fault_free rest
  | Fault _ :: _ => false
  end.

(** What one turn of the streaming loop logs for a chunk. *)
Definition chunk_events (cmd : string) (chunk : bytes) : trace :=
  [Read cmd (Some chunk_size) (inr chunk); Write (Utf8.decode chunk); Flush].

Definition loop_events (cmd : string) (chunks : list bytes) : trace :=
  flat_map (chunk_events cmd) chunks.

(** The status lines of the script. *)
Definition build_exit_line (n : Z) : text :=
  nl ++ lit "[BUILD EXIT CODE: " ++ str_of_int n ++ lit "]".

Definition pm2_exit_line (n : Z) : text :=
  lit "[PM2 EXIT: " ++ str_of_int n ++ lit "]".

(** The number a text of decimal digits denotes. *)
Fixpoint int_of_digits (acc : Z) (t : text) : Z :=
  match t with
  | [] => acc
  | d :: t' => int_of_digits (10 * acc + (Z.of_N d - 48)) t'
  end.

(** A remote on which nothing fails: the connection is made, every channel
    opens and every stream ends without a failure.  The exit statuses are
    left free. *)
Definition healthy (r : remote) : Prop :=
  connect_fault r = None /\
  forall cmd : string,
    open_fault (exec r cmd) = None /\
    fault_free (arrivals (exec r cmd)) = true.

(** ** Particular remotes *)

(** Nothing fails, nothing is printed, every command exits with 0. *)
Definition calm : remote :=
  scripted None (quiet 0) (quiet 0) (quiet 0).

(** The three commands exit with 1, 2 and 3. *)
Definition failing_build : remote :=
  scripted None (quiet 1) (quiet 2) (quiet 3).

(** The build succeeds and the restart exits with 255. *)
Definition restart_fails : remote :=
  scripted None (quiet 0) (quiet 255) (quiet 0).

(** The host cannot be reached. *)
Definition unreachable : remote :=
  scripted (Some ConnectionError) (quiet 0) (quiet 0) (quiet 0).

(** 4096 bytes of output, then silence until the timeout. *)
Definition stalling : list arrival :=
  [Data "x" (repeat "x"%byte 4095); Fault CommandTimeout].

Definition build_stalls : remote :=
  scripted None (talking stalling 0) (quiet 0) (quiet 0).

Definition restart_stalls : remote :=
  scripted None (quiet 0) (talking stalling 0) (quiet 0).

(** The build prints 4095 times the letter a and then the two bytes of
    U+00E9, so that the sequence lies across the end of the first chunk. *)
Definition split_char : remote :=
  scripted None
    (talking [Data "a" (repeat "a"%byte 4094 ++ [xc3; xa9])] 0)
    (quiet 0) (quiet 0).

(** ** The runs of the script *)

(** The chunks of one stream: none is empty, none exceeds the size asked
    for, and only the last may be shorter. *)
Inductive chunked : list bytes -> Prop :=
| chunked_nil : chunked []
| chunked_last c : c <> [] -> (length c <= chunk_size)%nat -> chunked [c]
| chunked_cons c c' cs :
    length c = chunk_size -> chunked (c' :: cs) -> chunked (c :: c' :: cs).

Definition banner1 : text := lit "=== STEP 1: npm run build ===".
Definition banner2 : text := nl ++ lit "=== STEP 2: pm2 restart gst ===".
Definition banner3 : text := nl ++ lit "=== STEP 3: pm2 status ===".

(** Every way step 1 can go. *)
Inductive step1_run (r : remote) : trace -> result Z -> Prop :=
| build_open_failed e :
    open_fault (exec r build_cmd) = Some e ->
    step1_run r [Print banner1; Exec build_cmd 720 (Some e)] (Raised e)
| build_read_failed e chunks rest :
    open_fault (exec r build_cmd) = None ->
    chunked chunks ->
    stream_bytes (arrivals (exec r build_cmd)) = concat chunks ++ rest ->
    fault_free (arrivals (exec r build_cmd)) = false ->
    step1_run r
      ([Print banner1; Exec build_cmd 720 None]
         ++ loop_events build_cmd chunks
         ++ [Read build_cmd (Some chunk_size) (inl e)])
      (Raised e)
| build_done chunks :
    open_fault (exec r build_cmd) = None ->
    chunked chunks ->
    stream_bytes (arrivals (exec r build_cmd)) = concat chunks ->
    step1_run r
      ([Print banner1; Exec build_cmd 720 None]
         ++ loop_events build_cmd chunks
         ++ [Read build_cmd (Some chunk_size) (inr []);
             RecvExit build_cmd (exit_status (exec r build_cmd));
             Print (build_exit_line (exit_status (exec r build_cmd)))])
      (Ok (exit_status (exec r build_cmd))).

(** Every way a command that is read to the end can go: the channel does not
    open, the read fails, or the whole output comes back. *)
Inductive read_all_run (r : remote) (cmd : string) (timeout : Z)
  : trace -> result bytes -> Prop :=
| open_failed e :
    open_fault (exec r cmd) = Some e ->
    read_all_run r cmd timeout [Exec cmd timeout (Some e)] (Raised e)
| read_failed e :
    open_fault (exec r cmd) = None ->
    fault_free (arrivals (exec r cmd)) = false ->
    read_all_run r cmd timeout
      [Exec cmd timeout None; Read cmd None (inl e)] (Raised e)
| read_done :
    open_fault (exec r cmd) = None ->
    fault_free (arrivals (exec r cmd)) = true ->
    read_all_run r cmd timeout
      [Exec cmd timeout None;
       Read cmd None (inr (stream_bytes (arrivals (exec r cmd))))]
      (Ok (stream_bytes (arrivals (exec r cmd)))).

Inductive step2_run (r : remote) : trace -> result unit -> Prop :=
| restart_failed t e :
    read_all_run r restart_cmd 30 t (Raised e) ->
    step2_run r (Print banner2 :: t) (Raised e)
| restart_done t data :
    read_all_run r restart_cmd 30 t (Ok data) ->
    step2_run r
      (Print banner2 :: t
         ++ [Print (Utf8.decode data);
             RecvExit restart_cmd (exit_status (exec r restart_cmd));
             Print (pm2_exit_line (exit_status (exec r restart_cmd)))])
      (Ok tt).

Inductive step3_run (r : remote) : trace -> result unit -> Prop :=
| status_failed t e :
    read_all_run r status_cmd 15 t (Raised e) ->
    step3_run r (Print banner3 :: t) (Raised e)
| status_done t data :
    read_all_run r status_cmd 15 t (Ok data) ->
    step3_run r (Print banner3 :: t ++ [Print (Utf8.decode data)]) (Ok tt).

Definition greeting : trace :=
  [SetPolicy;
   Print (lit "Connecting to VPS...");
   Connect hostname username password 15 None;
   Print (lit "Connected." ++ nl)].

(** What follows the pipeline: nothing when it raised. *)
Definition epilogue {A : Type} (res : result A) : trace :=
  match res with
  | Ok _ => [Close; Print (lit "Done.")]
  | _ => []
  end.

(** Every way the script can go. *)
Inductive run (r : remote) : trace -> result unit -> Prop :=
| run_connect_failed e :
    connect_fault r = Some e ->
    run r
      [SetPolicy;
       Print (lit "Connecting to VPS...");
       Connect hostname username password 15 (Some e)]
      (Raised e)
| run_build_failed t1 e :
    connect_fault r = None ->
    step1_run r t1 (Raised e) ->
    run r (greeting ++ t1) (Raised e)
| run_restart_failed t1 t2 e :
    connect_fault r = None ->
    step1_run r t1 (Ok 0%Z) ->
    step2_run r t2 (Raised e) ->
    run r (greeting ++ t1 ++ t2) (Raised e)
| run_restarted t1 t2 t3 res :
    connect_fault r = None ->
    step1_run r t1 (Ok 0%Z) ->
    step2_run r t2 (Ok tt) ->
    step3_run r t3 res ->
    run r (greeting ++ t1 ++ t2 ++ t3 ++ epilogue res) res
| run_skipped t1 n t3 res :
    connect_fault r = None ->
    step1_run r t1 (Ok n) ->
    n <> 0%Z ->
    step3_run r t3 res ->
    run r (greeting ++ t1 ++ [Print build_failed] ++ t3 ++ epilogue res) res.

Definition is_recv_exit (ev : event) : bool :=
  match ev with RecvExit _ _ => true | _ => false end.

(** A read without a size. *)
Definition is_read_all (ev : event) : bool :=
  match ev with Read _ None _ => true | _ => false end.

(** ** Places in a log *)

(** [Q pre ev post] at every place of a log: [ev] is the event there, [pre]
    what was logged before it and [post] what was logged after it. *)
Fixpoint each_place (Q : trace -> event -> trace -> Prop) (pre t : trace)
  : Prop :=
  match t with
  | [] => True
  | ev :: post => Q pre ev post /\ each_place Q (pre ++ [ev]) post
  end.

(** The command issued last in a log. *)
Definition latest_exec (t : trace) : option string :=
  hd_error (rev (execs t)).

(** What the script does with the result of a read, at the place of the
    read in the log: the build is read in chunks of at most [chunk_size]
    bytes, and a chunk that is not empty is written and flushed next; the
    other two commands are read without a size, and what comes back is
    printed next.  Nothing follows a read that raised. *)
Definition read_discipline (ev : event) (post : trace) : Prop :=
  forall (cmd : string) (sz : option nat) (res : fatal + bytes),
    ev = Read cmd sz res ->
    (cmd = build_cmd /\ sz = Some chunk_size /\
     match res with
     | inr c =>
       (length c <= chunk_size)%nat /\
       (c = [] \/
        exists post', post = Write (Utf8.decode c) :: Flush :: post')
     | inl _ => post = []
     end)
    \/
    ((cmd = restart_cmd \/ cmd = status_cmd) /\ sz = None /\
     match res with
     | inr data => exists post', post = Print (Utf8.decode data) :: post'
     | inl _ => post = []
     end).

(** ** More of what a remote and a log show *)

(** [bytes.decode('utf-8')] without [errors='replace']: the same decoder,
    which raises where the other puts a replacement character. *)
Fixpoint decode_strict_codes (s : list N) : option text :=
  match s with
  | [] => Some []
  | ch :: s1 =>
    if (ch <? 0x80)%N then option_map (cons ch) (decode_strict_codes s1)
    else if (ch <? 0xC2)%N then None
    else if (ch <? 0xE0)%N then
      match s1 with
      | [] => None
      | ch2 :: s2 =>
        if Utf8.is_continuation ch2
        then option_map (cons (Utf8.cp2 ch ch2)) (decode_strict_codes s2)
        else None
      end
    else if (ch <? 0xF0)%N then
      match s1 with
      | [] => None
      | ch2 :: s2 =>
        if negb (Utf8.is_continuation ch2)
           || (if (ch2 <? 0xA0)%N then (ch =? 0xE0)%N else (ch =? 0xED)%N)
        then None
        else
          match s2 with
          | [] => None
          | ch3 :: s3 =>
            if Utf8.is_continuation ch3
            then option_map (cons (Utf8.cp3 ch ch2 ch3))
                   (decode_strict_codes s3)
            else None
          end
      end
    else if (ch <? 0xF5)%N then
      match s1 with
      | [] => None
      | ch2 :: s2 =>
        if negb (Utf8.is_continuation ch2)
           || (if (ch2 <? 0x90)%N then (ch =? 0xF0)%N else (ch =? 0xF4)%N)
        then None
        else
          match s2 with
          | [] => None
          | ch3 :: s3 =>
            if negb (Utf8.is_continuation ch3) then None
            else
              match s3 with
              | [] => None
              | ch4 :: s4 =>
                if Utf8.is_continuation ch4
                then option_map (cons (Utf8.cp4 ch ch2 ch3 ch4))
                       (decode_strict_codes s4)
                else None
              end
          end
      end
    else None
  end.

Definition decode_strict (b : bytes) : option text :=
  decode_strict_codes (map Byte.to_N b).

(** The chunks the sized reads of [cmd] returned, in order; the empty chunk
    that ends the loop is left out. *)
Fixpoint chunks_read (cmd : string) (t : trace) : list bytes :=
  match t with
  | [] => []
  | Read c (Some _) (inr (b :: bs)) :: t' =>
    if String.eqb c cmd then (b :: bs) :: chunks_read cmd t'
    else chunks_read cmd t'
  | _ :: t' => chunks_read cmd t'
  end.

(** The first failure a stream runs into. *)
Fixpoint first_fault (arr : list arrival) : option fatal :=
  match arr with
  | [] => None
  | Data _ _ :: rest => first_fault rest
  | Fault e :: _ => Some e
  end.

(** What goes wrong when a command is issued and its output read to the
    end: the channel does not open, or the stream fails. *)
Definition channel_fault (c : channel) : option fatal :=
  match open_fault c with
  | Some e => Some e
  | None => first_fault (arrivals c)
  end.

(** The first thing that goes wrong on a remote, in the order of the script:
    the connection, the build, the restart when the build exits with 0, the
    status query. *)
Definition first_failure (r : remote) : option fatal :=
  match connect_fault r with
  | Some e => Some e
  | None =>
    match channel_fault (exec r build_cmd) with
    | Some e => Some e
    | None =>
      match
        (if (exit_status (exec r build_cmd) =? 0)%Z
         then channel_fault (exec r restart_cmd) else None)
      with
      | Some e => Some e
      | None => channel_fault (exec r status_cmd)
      end
    end
  end.

(** A read that raised. *)
Definition is_failed_read (ev : event) : bool :=
  match ev with Read _ _ (inl _) => true | _ => false end.

(** Remotes that print something: one in plain ASCII, one whose build
    prints the two bytes of U+00E9 after two letters. *)
Definition plain : remote :=
  scripted None
    (talking [Data "o" ["k"%byte]] 0)
    (talking [Data "u" ["p"%byte]] 0)
    (talking [Data "o" ["n"%byte]] 0).

Definition accented : remote :=
  scripted None
    (talking [Data "o" ["k"%byte]; Data xc3 [xa9]] 0)
    (quiet 0) (quiet 0).

(** * Properties *)

(** Texts are compared as they are written, not by decoding them. *)
Opaque lit str_of_int Utf8.decode.

Lemma chunk_size_pos : (0 < chunk_size)%nat.
Proof. unfold chunk_size. apply Nat.lt_0_succ. Qed.

Opaque chunk_size.

Ltac run_script :=
  cbn [bind emit ret raise print write flush close fst snd app
       fcmd rbuffer pending fstatus].

(** ** The decoder and the number texts on small inputs *)

Example decode_e_acute : Utf8.decode [xc3; xa9] = [0xE9%N].
Proof. reflexivity. Qed.
Example decode_cut : Utf8.decode [xe2; x80] = [Utf8.REPLACEMENT].
Proof. reflexivity. Qed.
Example decode_dash : lit "—" = [0x2014%N].
Proof. reflexivity. Qed.
Example decode_emoji : Utf8.decode [xf0; x9f; x98; x80] = [0x1F600%N].
Proof. reflexivity. Qed.
Example decode_surrogate : Utf8.decode [xed; xa0; x80] = [Utf8.REPLACEMENT; Utf8.REPLACEMENT; Utf8.REPLACEMENT].
Proof. reflexivity. Qed.
Example str_neg : str_of_int (-1) = lit "-1".
Proof. reflexivity. Qed.
Example str_0 : str_of_int 0 = lit "0".
Proof. reflexivity. Qed.
Example str_255 : str_of_int 255 = lit "255".
Proof. reflexivity. Qed.

(** ** The monad *)

Lemma fst_bind {A B : Type} (m : M A) (k : A -> M B) :
  fst (bind m k) =
  fst m ++ match snd m with Ok a => fst (k a) | _ => [] end.
Proof.
  destruct m as [t [a | e |]]; simpl.
  - destruct (k a); reflexivity.
  - now rewrite app_nil_r.
  - now rewrite app_nil_r.
Qed.

Lemma snd_bind {A B : Type} (m : M A) (k : A -> M B) :
  snd (bind m k) =
  match snd m with
  | Ok a => snd (k a)
  | Raised e => Raised e
  | OutOfFuel => OutOfFuel
  end.
Proof.
  destruct m as [t [a | e |]]; simpl; try reflexivity.
  destruct (k a); reflexivity.
Qed.

(** ** Reading from the channel *)

Lemma fill_inr size : forall pend buf buf' pend',
  fill size buf pend = inr (buf', pend') ->
  buf' ++ stream_bytes pend' = buf ++ stream_bytes pend /\
  (length buf' + pending_size pend' = length buf + pending_size pend)%nat /\
  (length buf' < size -> pend' = [])%nat /\
  fault_free pend' = fault_free pend.
Proof.
  induction pend as [| [b bs | e] rest IH]; intros buf buf' pend' H;
    cbn [fill] in H.
  - destruct (Nat.leb_spec size (length buf)); inversion H; subst;
      repeat split; auto; lia.
  - destruct (Nat.leb_spec size (length buf)).
    + inversion H; subst; repeat split; auto; lia.
    + apply IH in H. destruct H as (H1 & H2 & H3 & H4).
      rewrite length_app in H2. cbn [length] in H2.
      cbn [pending_size stream_bytes].
      rewrite <- app_assoc in H1. cbn [app] in H1.
      repeat split; auto. lia.
  - destruct (Nat.leb_spec size (length buf)); inversion H; subst.
    repeat split; auto; lia.
Qed.

Lemma drain_inr : forall pend buf data,
  drain buf pend = inr data ->
  data = buf ++ stream_bytes pend /\ fault_free pend = true.
Proof.
  induction pend as [| [b bs | e] rest IH]; intros buf data H; simpl in H.
  - inversion H; subst. now rewrite app_nil_r.
  - apply IH in H. destruct H as [H1 H2]. rewrite <- app_assoc in H1. now split.
  - discriminate.
Qed.

Lemma drain_fault_free : forall pend buf,
  fault_free pend = true -> drain buf pend = inr (buf ++ stream_bytes pend).
Proof.
  induction pend as [| [b bs | e] rest IH]; intros buf H; simpl in *.
  - now rewrite app_nil_r.
  - rewrite IH by assumption. now rewrite <- app_assoc.
  - discriminate.
Qed.

Lemma fill_fault_free size : forall pend buf,
  fault_free pend = true -> exists buf' pend',
    fill size buf pend = inr (buf', pend') /\ fault_free pend' = true.
Proof.
  induction pend as [| [b bs | e] rest IH]; intros buf H; simpl in *.
  - destruct (size <=? length buf)%nat; eauto.
  - destruct (size <=? length buf)%nat; eauto.
  - discriminate.
Qed.

(** ** The streaming loop *)

Lemma chunked_Forall cs :
  chunked cs -> Forall (fun c => c <> [] /\ (length c <= chunk_size)%nat) cs.
Proof.
  induction 1; constructor; auto.
  split; [| lia]. intros ->. discriminate.
Qed.

Lemma stream_loop_unfold fuel f :
  stream_loop (S fuel) f =
  match fill chunk_size (rbuffer f) (pending f) with
  | inl e => ([Read (fcmd f) (Some chunk_size) (inl e)], Raised e)
  | inr (buf, pend) =>
    let f1 := {| fcmd := fcmd f; rbuffer := skipn chunk_size buf;
                 pending := pend; fstatus := fstatus f |} in
    match firstn chunk_size buf with
    | [] => ([Read (fcmd f) (Some chunk_size) (inr [])], Ok f1)
    | x :: c =>
      (chunk_events (fcmd f) (x :: c) ++ fst (stream_loop fuel f1),
       snd (stream_loop fuel f1))
    end
  end.
Proof.
  cbn [stream_loop]. unfold read.
  destruct (fill chunk_size (rbuffer f) (pending f)) as [e | [buf pend]].
  - reflexivity.
  - destruct (firstn chunk_size buf) as [| x c].
    + reflexivity.
    + cbn -[Utf8.decode stream_loop].
      destruct (stream_loop fuel _) as [t r]. reflexivity.
Qed.

Lemma stream_loop_spec : forall fuel f,
  (available f < fuel)%nat ->
  exists chunks,
    chunked chunks /\
    (available f = 0%nat -> chunks = []) /\
    ((exists f',
        stream_loop fuel f =
          (loop_events (fcmd f) chunks
             ++ [Read (fcmd f) (Some chunk_size) (inr [])], Ok f') /\
        fcmd f' = fcmd f /\ fstatus f' = fstatus f /\
        concat chunks = rbuffer f ++ stream_bytes (pending f))
     \/
     (exists e rest,
        stream_loop fuel f =
          (loop_events (fcmd f) chunks
             ++ [Read (fcmd f) (Some chunk_size) (inl e)], Raised e) /\
        rbuffer f ++ stream_bytes (pending f) = concat chunks ++ rest /\
        fault_free (pending f) = false)).
Proof.
  induction fuel as [| fuel IH]; intros f Hlt; [lia |].
  rewrite stream_loop_unfold.
  destruct (fill chunk_size (rbuffer f) (pending f)) as [e | [buf pend]] eqn:Hfill.
  - exists []. split; [constructor | split; [auto |]]. right.
    exists e, (rbuffer f ++ stream_bytes (pending f)). split; [reflexivity |].
    split; [reflexivity |].
    destruct (fault_free (pending f)) eqn:Hff; [| reflexivity].
    destruct (fill_fault_free chunk_size (pending f) (rbuffer f) Hff)
      as (b' & p' & Hf & _).
    congruence.
  - apply fill_inr in Hfill.
    destruct Hfill as (Hbytes & Hsize & Heof & Hfree).
    destruct (firstn chunk_size buf) as [| x chunk] eqn:Hchunk.
    + exists []. split; [constructor | split; [auto |]]. left.
      eexists. split; [reflexivity |]. cbn [fcmd fstatus concat].
      repeat split.
      pose proof chunk_size_pos as Hpos.
      assert (Hb : buf = []).
      { destruct buf as [| y buf]; [reflexivity |].
        remember chunk_size as n. destruct n; [lia | discriminate]. }
      subst buf. cbn [length] in Heof. rewrite Heof in Hbytes by lia.
      exact Hbytes.
    + set (f1 := {| fcmd := fcmd f; rbuffer := skipn chunk_size buf;
                    pending := pend; fstatus := fstatus f |}).
      assert (Hlen : (length (x :: chunk) = Nat.min chunk_size (length buf))%nat)
        by (rewrite <- Hchunk; apply length_firstn).
      assert (Hsk : (length (skipn chunk_size buf) = length buf - chunk_size)%nat)
        by apply length_skipn.
      cbn [length] in Hlen.
      assert (Hav : (available f1 < fuel)%nat).
      { unfold available in *. subst f1. cbn [rbuffer pending]. lia. }
      destruct (IH f1 Hav) as (chunks & Hck & Hzero & Hres).
      exists ((x :: chunk) :: chunks).
      assert (Hsplit : buf = (x :: chunk) ++ skipn chunk_size buf)
        by (rewrite <- Hchunk; symmetry; apply firstn_skipn).
      split.
      { destruct chunks as [| c' cs].
        - constructor; [discriminate | cbn [length]; lia].
        - constructor; [| assumption].
          destruct (Nat.lt_ge_cases (length buf) chunk_size) as [Hshort | Hfull];
            [| cbn [length]; lia].
          exfalso. specialize (Heof Hshort).
          assert (available f1 = 0%nat) as Hz.
          { unfold available. subst f1. cbn [rbuffer pending].
            rewrite Heof. cbn [pending_size]. lia. }
          specialize (Hzero Hz). discriminate. }
      split.
      { intros Hz. unfold available in Hz. lia. }
      destruct Hres as [(f' & Hrun & Hc & Hs & Hcat)
                       | (e & rest & Hrun & Hcat & Hff)].
      * left. exists f'. cbv zeta. rewrite Hrun. cbn [fst snd loop_events flat_map].
        rewrite <- app_assoc. repeat split; auto.
        subst f1. cbn [rbuffer pending] in Hcat. cbn [concat].
        rewrite Hcat, <- Hbytes.
        rewrite Hsplit at 2. now rewrite <- app_assoc.
      * right. exists e, rest. cbv zeta. rewrite Hrun.
        cbn [fst snd loop_events flat_map].
        rewrite <- app_assoc. repeat split; auto.
        -- subst f1. cbn [rbuffer pending] in Hcat. cbn [concat].
           rewrite <- Hbytes.
           rewrite Hsplit at 1. rewrite <- !app_assoc. f_equal. exact Hcat.
        -- subst f1. cbn [pending] in Hff. congruence.
Qed.

Lemma drain_inl pend buf e :
  drain buf pend = inl e -> fault_free pend = false.
Proof.
  intros H. destruct (fault_free pend) eqn:Hff; [| reflexivity].
  rewrite drain_fault_free in H by assumption. discriminate.
Qed.

Lemma step3_sound r : step3_run r (fst (step3 r)) (snd (step3 r)).
Proof.
  unfold step3, exec_command, read.
  destruct (open_fault (exec r status_cmd)) as [e |] eqn:Hopen.
  - run_script. do 2 constructor. assumption.
  - run_script.
    destruct (drain [] (arrivals (exec r status_cmd))) as [e | data] eqn:Hd.
    + run_script. constructor. constructor; eauto using drain_inl.
    + run_script. apply drain_inr in Hd. destruct Hd as [-> Hff]. cbn [app].
      apply (status_done r [_; _]). now constructor.
Qed.

Lemma step2_sound r : step2_run r (fst (step2 r)) (snd (step2 r)).
Proof.
  unfold step2, exec_command, read, recv_exit_status.
  destruct (open_fault (exec r restart_cmd)) as [e |] eqn:Hopen.
  - run_script. do 2 constructor. assumption.
  - run_script.
    destruct (drain [] (arrivals (exec r restart_cmd))) as [e | data] eqn:Hd.
    + run_script. constructor. constructor; eauto using drain_inl.
    + run_script. apply drain_inr in Hd. destruct Hd as [-> Hff]. cbn [app].
      apply (restart_done r [_; _]). now constructor.
Qed.

Lemma step1_sound r : step1_run r (fst (step1 r)) (snd (step1 r)).
Proof.
  unfold step1. rewrite !fst_bind, !snd_bind.
  unfold exec_command. rewrite !fst_bind, !snd_bind.
  destruct (open_fault (exec r build_cmd)) as [e |] eqn:Hopen.
  - run_script. now constructor.
  - run_script.
    set (f := {| fcmd := build_cmd; rbuffer := [];
                 pending := arrivals (exec r build_cmd);
                 fstatus := exit_status (exec r build_cmd) |}).
    destruct (stream_loop_spec (S (available f)) f (Nat.lt_succ_diag_r _))
      as (chunks & Hck & _ & [(f' & Hrun & Hc & Hs & Hcat)
                             | (e & rest & Hrun & Hcat & Hff)]).
    + rewrite !fst_bind, !snd_bind. rewrite Hrun. cbn [fst snd].
      unfold recv_exit_status. run_script.
      rewrite Hs, Hc. subst f. run_script.
      rewrite <- !app_assoc. cbn [app].
      apply build_done; auto.
    + rewrite !fst_bind, !snd_bind. rewrite Hrun. cbn [fst snd].
      rewrite app_nil_r. subst f. run_script.
      eapply build_read_failed; eauto.
Qed.

Lemma deploy_sound r : run r (fst (deploy r)) (snd (deploy r)).
Proof.
  unfold deploy, pipeline, connect, set_missing_host_key_policy.
  destruct (connect_fault r) as [e |] eqn:Hconn.
  - run_script. now constructor.
  - pose proof (step1_sound r) as H1.
    pose proof (step2_sound r) as H2.
    pose proof (step3_sound r) as H3.
    destruct (step1 r) as [t1 [n | e |]]; cbn [fst snd] in H1;
      [| | inversion H1].
    + run_script.
      destruct (step3 r) as [t3 [[] | e3 |]]; cbn [fst snd] in H3;
        [| | inversion H3].
      * destruct (n =? 0)%Z eqn:Hn;
          [apply Z.eqb_eq in Hn; subst n | apply Z.eqb_neq in Hn].
        -- destruct (step2 r) as [t2 [[] | e2 |]]; cbn [fst snd] in H2;
             [| | inversion H2]; run_script.
           ++ rewrite <- ?app_assoc.
              apply (run_restarted r t1 t2 t3 (Ok tt)); auto.
           ++ apply run_restart_failed; auto.
        -- run_script. rewrite <- ?app_assoc.
           apply (run_skipped r t1 n t3 (Ok tt)); auto.
      * destruct (n =? 0)%Z eqn:Hn;
          [apply Z.eqb_eq in Hn; subst n | apply Z.eqb_neq in Hn].
        -- destruct (step2 r) as [t2 [[] | e2 |]]; cbn [fst snd] in H2;
             [| | inversion H2]; run_script.
           ++ rewrite <- (app_nil_r t3).
              apply (run_restarted r t1 t2 t3 (Raised e3)); auto.
           ++ apply run_restart_failed; auto.
        -- run_script. rewrite <- (app_nil_r t3).
           apply (run_skipped r t1 n t3 (Raised e3)); auto.
    + run_script. apply run_build_failed; auto.
Qed.

(** The loop of step 1 never runs out of turns: a run ends at the end of the
    script or in a fatal error. *)
Lemma deploy_total r : snd (deploy r) <> OutOfFuel.
Proof.
  pose proof (deploy_sound r) as H. intros Hout. rewrite Hout in H.
  inversion H; subst;
    repeat match goal with
    | Hs : step3_run _ _ OutOfFuel |- _ => inversion Hs
    end.
Qed.

(** ** Reading a log *)

Lemma execs_app t1 t2 : execs (t1 ++ t2) = execs t1 ++ execs t2.
Proof.
  induction t1 as [| ev t1 IH]; [reflexivity |].
  destruct ev; cbn [app execs]; rewrite IH; reflexivity.
Qed.

Lemma closes_app t1 t2 : closes (t1 ++ t2) = (closes t1 + closes t2)%nat.
Proof.
  induction t1 as [| ev t1 IH]; [reflexivity |].
  destruct ev; cbn [app closes]; rewrite IH; reflexivity.
Qed.

Lemma streamed_app t1 t2 : streamed (t1 ++ t2) = streamed t1 ++ streamed t2.
Proof.
  induction t1 as [| ev t1 IH]; [reflexivity |].
  destruct ev; cbn [app streamed]; rewrite IH; try reflexivity.
  now rewrite app_assoc.
Qed.

Lemma execs_loop cmd chunks : execs (loop_events cmd chunks) = [].
Proof. induction chunks as [| c cs IH]; [reflexivity | exact IH]. Qed.

Lemma closes_loop cmd chunks : closes (loop_events cmd chunks) = 0%nat.
Proof. induction chunks as [| c cs IH]; [reflexivity | exact IH]. Qed.

Lemma streamed_loop cmd chunks :
  streamed (loop_events cmd chunks) = concat (map Utf8.decode chunks).
Proof.
  induction chunks as [| c cs IH]; [reflexivity |].
  cbn [loop_events flat_map chunk_events app streamed map concat].
  f_equal. exact IH.
Qed.

Lemma in_loop_events ev cmd chunks :
  In ev (loop_events cmd chunks) ->
  exists c, In c chunks /\
    (ev = Read cmd (Some chunk_size) (inr c) \/
     ev = Write (Utf8.decode c) \/ ev = Flush).
Proof.
  unfold loop_events. rewrite in_flat_map. intros (c & Hc & Hin).
  exists c. split; [assumption |].
  cbn in Hin. intuition.
Qed.

(** Every case of a run, with the log of each step spelled out. *)
Ltac invert_steps :=
  repeat match goal with
  | H : step1_run _ _ _ |- _ => inversion H; clear H; subst
  | H : step2_run _ _ _ |- _ => inversion H; clear H; subst
  | H : step3_run _ _ _ |- _ => inversion H; clear H; subst
  | H : read_all_run _ _ _ _ _ |- _ => inversion H; clear H; subst
  end.

Ltac run_cases r t res :=
  let H := fresh "Hrun" in
  pose proof (deploy_sound r) as H;
  remember (fst (deploy r)) as t eqn:Ht;
  remember (snd (deploy r)) as res eqn:Hres;
  clear Ht Hres;
  destruct H; try discriminate; invert_steps; try discriminate.

Ltac read_log :=
  unfold issued, greeting, epilogue;
  repeat (rewrite ?execs_app, ?closes_app, ?streamed_app,
                  ?execs_loop, ?closes_loop;
          cbn [execs closes app]).

Lemma filter_loop (p : event -> bool) cmd chunks :
  (forall c, p (Read cmd (Some chunk_size) (inr c)) = false) ->
  (forall x, p (Write x) = false) ->
  p Flush = false ->
  filter p (loop_events cmd chunks) = [].
Proof.
  intros Hr Hw Hf. induction chunks as [| c cs IH]; [reflexivity |].
  cbn [loop_events flat_map chunk_events app filter].
  rewrite Hr, Hw, Hf. exact IH.
Qed.

Lemma in_filtered (p : event -> bool) ev t :
  p ev = true -> In ev t -> In ev (filter p t).
Proof. intros Hp Hin. apply filter_In. now split. Qed.

Ltac count_issued :=
  repeat match goal with
  | |- context [count_occ string_dec ?l ?x] =>
    let v := eval vm_compute in (count_occ string_dec l x) in
    change (count_occ string_dec l x) with v
  end.

(** Finds an event in a log by its place, without comparing texts. *)
Ltac in_log :=
  lazymatch goal with
  | |- In ?x (?y :: ?l) =>
    first [constr_eq x y; left; exact eq_refl | right; in_log]
  | |- In ?x (?l1 ++ ?l2) =>
    apply in_or_app; first [left; in_log | right; in_log]
  end.

Ltac filter_log p :=
  unfold greeting, epilogue;
  repeat (rewrite ?filter_app, ?(filter_loop p) by reflexivity;
          cbn [filter p app]).

(** C4: in every run that raises no fatal error the status query is issued
    exactly once, whatever the build exit status and whether or not the
    restart ran; the commands issued are build, restart, status when the
    build exits with 0, and build, status otherwise. *)
Theorem status_query_once_and_step_order :
  forall (r : remote) (u : unit),
    snd (deploy r) = Ok u ->
    issued status_cmd (fst (deploy r)) = 1%nat /\
    execs (fst (deploy r)) =
      if (exit_status (exec r build_cmd) =? 0)%Z
      then [build_cmd; restart_cmd; status_cmd]
      else [build_cmd; status_cmd].
Proof.
  intros r u. run_cases r t res; intros _; rewrite ?Z.eqb_refl;
    try match goal with
        | H : _ <> 0%Z |- _ => apply Z.eqb_neq in H; rewrite H
        end;
    read_log; split; reflexivity.
Qed.

(** C2, as the script has it: the transport is released exactly once in
    every run that reaches the end of the script and never more than once;
    in a run in which [connect] or a command raises a fatal error the
    script has no handler and [close] is not called. *)
Theorem close_once_iff_completed :
  forall r : remote,
    closes (fst (deploy r)) =
      match snd (deploy r) with
      | Ok _ => 1%nat
      | _ => 0%nat
      end.
Proof.
  intros r. run_cases r t res; read_log; reflexivity.
Qed.

(** C1: once the build has reported its exit status, the restart command is
    issued exactly once if and only if that status is 0; for every other
    status it is never issued and the build-failed line is printed. *)
Theorem restart_gated_by_build_status :
  forall (r : remote) (n : Z),
    In (RecvExit build_cmd n) (fst (deploy r)) ->
    n = exit_status (exec r build_cmd) /\
    (issued restart_cmd (fst (deploy r)) = 1%nat <-> n = 0%Z) /\
    (n <> 0%Z ->
       issued restart_cmd (fst (deploy r)) = 0%nat /\
       In (Print build_failed) (fst (deploy r))).
Proof.
  intros r n Hin. apply (in_filtered is_recv_exit) in Hin; [| reflexivity].
  revert Hin. run_cases r t res; filter_log is_recv_exit; intros Hin;
    cbn [In] in Hin; repeat (destruct Hin as [Hin | Hin]);
    try contradiction; try discriminate Hin;
    inversion Hin; subst; clear Hin; (split; [reflexivity |]);
    read_log; count_issued.
  all: try (split; [split; [discriminate | contradiction] |];
            intros _; split; [reflexivity | in_log]).
  all: split; [split; reflexivity | intros Hn; now contradiction Hn].
Qed.

Lemma each_place_at Q : forall t p0 pre ev post,
  each_place Q p0 t -> t = pre ++ ev :: post -> Q (p0 ++ pre) ev post.
Proof.
  induction t as [| x t IH]; intros p0 pre ev post H Heq.
  - destruct pre; discriminate.
  - destruct H as [Hx Hrest]. destruct pre as [| y pre].
    + inversion Heq; subst. now rewrite app_nil_r.
    + inversion Heq; subst.
      specialize (IH _ _ _ _ Hrest eq_refl).
      now rewrite <- app_assoc in IH.
Qed.

Lemma each_place_app Q : forall a p0 b,
  each_place (fun p e q => Q p e (q ++ b)) p0 a ->
  each_place Q (p0 ++ a) b ->
  each_place Q p0 (a ++ b).
Proof.
  induction a as [| x a IH]; intros p0 b Ha Hb.
  - now rewrite app_nil_r in Hb.
  - destruct Ha as [Hx Ha]. split; [exact Hx |].
    apply IH; [exact Ha |]. now rewrite <- app_assoc.
Qed.

Lemma each_place_any Q : forall a p0,
  (forall ev, In ev a -> forall p q, Q p ev q) -> each_place Q p0 a.
Proof.
  induction a as [| x a IH]; intros p0 H; [exact I |].
  split; [apply H; now left |].
  apply IH. intros ev Hin. apply H. now right.
Qed.

(** A property that no turn of the streaming loop can break. *)
Lemma each_place_loop Q cmd chunks p0 :
  (forall c p q, Q p (Read cmd (Some chunk_size) (inr c)) q) ->
  (forall x p q, Q p (Write x) q) ->
  (forall p q, Q p Flush q) ->
  each_place Q p0 (loop_events cmd chunks).
Proof.
  intros Hr Hw Hf. apply each_place_any. intros ev Hin.
  apply in_loop_events in Hin. destruct Hin as (c & _ & [-> | [-> | ->]]); auto.
Qed.

Ltac other_event :=
  intros;
  match goal with
  | H : @eq event _ _ |- _ => discriminate H
  | H : @eq (option fatal) _ _ |- _ => discriminate H
  end.

(** Walks a log whose steps are spelled out, leaving the places that the
    property is about.  The property is an implication at every place. *)
Ltac walk_log_using loop_tac :=
  unfold greeting, epilogue; cbn [app];
  repeat first
    [ loop_tac
    | apply each_place_app
    | progress cbn [each_place]
    | match goal with
      | |- _ /\ _ => split
      | |- True => exact I
      end ].

Ltac walk_log :=
  walk_log_using ltac:(apply each_place_loop; [try other_event ..]).

(** C10: in every run, nothing is done on the session after the transport
    is closed: at the place of a [close] in the log, no [close] was logged
    before it, and no command is issued, no output read and no exit status
    asked for after it. *)
Theorem no_use_after_close :
  forall (r : remote) (pre post : trace),
    fst (deploy r) = pre ++ Close :: post ->
    closes pre = 0%nat /\
    forallb (fun ev => negb (session_op ev)) post = true.
Proof.
  intros r pre post Heq.
  assert (H : each_place
                (fun p ev q => ev = Close ->
                   closes p = 0%nat /\
                   forallb (fun ev => negb (session_op ev)) q = true)
                [] (fst (deploy r))).
  { clear Heq. run_cases r t res; walk_log; try other_event.
    all: intros _; read_log; split; reflexivity. }
  exact (each_place_at _ _ [] pre Close post H Heq eq_refl).
Qed.

Lemma console_app t1 t2 : console (t1 ++ t2) = console t1 ++ console t2.
Proof.
  induction t1 as [| ev t1 IH]; [reflexivity |].
  destruct ev; cbn [app console]; rewrite IH; try reflexivity.
  - now rewrite <- !app_assoc.
  - now rewrite <- app_assoc.
Qed.

Lemma commands_differ :
  build_cmd <> restart_cmd /\ build_cmd <> status_cmd /\
  restart_cmd <> status_cmd.
Proof. repeat split; discriminate. Qed.

Lemma execs_once r : NoDup (execs (fst (deploy r))).
Proof.
  destruct commands_differ as (Hbr & Hbs & Hrs).
  run_cases r t res; read_log; repeat constructor; cbn [In]; intuition.
Qed.

(** C9: a fatal error raised by [connect] or by a command ends the run where
    it is raised: the operation that raised is the last thing in the log, the
    run ends in that error, no command is issued a second time, and the
    console keeps what was printed before. *)
Theorem fatal_error_ends_run :
  forall (r : remote) (pre post : trace) (ev : event) (e : fatal),
    fst (deploy r) = pre ++ ev :: post ->
    raised_by ev = Some e ->
    post = [] /\
    snd (deploy r) = Raised e /\
    console (fst (deploy r)) = console pre /\
    NoDup (execs (fst (deploy r))).
Proof.
  intros r pre post ev e Heq Hraise.
  assert (H : each_place
                (fun _ ev q => forall e,
                   raised_by ev = Some e ->
                   q = [] /\ snd (deploy r) = Raised e)
                [] (fst (deploy r))).
  { clear. run_cases r t res; walk_log; try other_event.
    all: intros e' He'; inversion He'; subst; split; reflexivity. }
  destruct (each_place_at _ _ [] pre ev post H Heq e Hraise) as [-> Hres].
  repeat split; auto using execs_once.
  rewrite Heq, console_app.
  destruct ev; try discriminate Hraise; cbn [console]; apply app_nil_r.
Qed.

Ltac drained_in_log ev :=
  apply existsb_exists; exists ev; split; [in_log | reflexivity].

(** C8, as the script has it: an exit status is retrieved only for the
    build and the restart command, after that command's output has been
    read to the end of the stream, with no read of it afterwards and before
    any later command is issued; the output of the status command is read to
    the end before the transport is closed, and its exit status is never
    retrieved. *)
Theorem exit_status_after_drain :
  forall r : remote,
    (forall (pre post : trace) (cmd : string) (st : Z),
       fst (deploy r) = pre ++ RecvExit cmd st :: post ->
       (cmd = build_cmd \/ cmd = restart_cmd) /\
       existsb (drained_by cmd) pre = true /\
       forallb (fun ev => negb (reads_of cmd ev)) post = true /\
       latest_exec pre = Some cmd) /\
    (forall pre post : trace,
       fst (deploy r) = pre ++ Close :: post ->
       existsb (drained_by status_cmd) pre = true) /\
    (forall st : Z, ~ In (RecvExit status_cmd st) (fst (deploy r))).
Proof.
  intros r. split; [| split].
  - intros pre post cmd st Heq.
    assert (H : each_place
                  (fun p ev q => forall cmd st,
                     ev = RecvExit cmd st ->
                     (cmd = build_cmd \/ cmd = restart_cmd) /\
                     existsb (drained_by cmd) p = true /\
                     forallb (fun ev => negb (reads_of cmd ev)) q = true /\
                     latest_exec p = Some cmd)
                  [] (fst (deploy r))).
    { clear. run_cases r t res; walk_log; try other_event.
      all: intros cmd st Hev; inversion Hev; subst; clear Hev.
      all: unfold latest_exec; read_log.
      all: repeat split; try reflexivity; auto.
      all: first
        [ drained_in_log (Read build_cmd (Some chunk_size) (inr []))
        | match goal with
          | |- context [Read restart_cmd None (inr ?d)] =>
            drained_in_log (Read restart_cmd None (inr d))
          end ]. }
    exact (each_place_at _ _ [] pre _ post H Heq cmd st eq_refl).
  - intros pre post Heq.
    assert (H : each_place
                  (fun p ev _ => ev = Close ->
                     existsb (drained_by status_cmd) p = true)
                  [] (fst (deploy r))).
    { clear. run_cases r t res; walk_log; try other_event.
      all: intros _;
        match goal with
        | |- context [Read status_cmd None (inr ?d)] =>
          drained_in_log (Read status_cmd None (inr d))
        end. }
    exact (each_place_at _ _ [] pre _ post H Heq eq_refl).
  - intros st Hin. apply (in_filtered is_recv_exit) in Hin; [| reflexivity].
    revert Hin. run_cases r t res; filter_log is_recv_exit; intros Hin;
      cbn [In] in Hin; repeat (destruct Hin as [Hin | Hin]);
      try contradiction; discriminate Hin.
Qed.

Lemma loop_read_discipline chunks (g : trace -> trace) p0 :
  (forall ev q, g (ev :: q) = ev :: g q) ->
  chunked chunks ->
  each_place (fun _ ev q => read_discipline ev (g q)) p0
    (loop_events build_cmd chunks).
Proof.
  intros Hg Hck. apply chunked_Forall in Hck. revert p0.
  induction Hck as [| c cs [Hne Hlen] _ IH]; intros p0; [exact I |].
  cbn [loop_events flat_map chunk_events app each_place].
  repeat split; try (intros cmd sz res Hev; discriminate Hev).
  - intros cmd sz res Hev. inversion Hev; subst. left.
    repeat split; auto. right. rewrite !Hg. eexists. reflexivity.
  - apply IH.
Qed.

(** C5, as the script has it: the output of the build is read in chunks of
    at most 4096 bytes, and each chunk is decoded, written and flushed
    before the next read; the output of the restart and of the status
    command is read to the end of the stream by one read and printed once
    after it, so that none of it is shown when that read fails. *)
Theorem output_read_discipline :
  forall (r : remote) (pre post : trace)
         (cmd : string) (sz : option nat) (res : fatal + bytes),
    fst (deploy r) = pre ++ Read cmd sz res :: post ->
    (cmd = build_cmd /\ sz = Some chunk_size /\
     match res with
     | inr c =>
       (length c <= chunk_size)%nat /\
       (c = [] \/
        exists post', post = Write (Utf8.decode c) :: Flush :: post')
     | inl _ => post = []
     end)
    \/
    ((cmd = restart_cmd \/ cmd = status_cmd) /\ sz = None /\
     match res with
     | inr data => exists post', post = Print (Utf8.decode data) :: post'
     | inl _ => post = []
     end).
Proof.
  intros r pre post cmd sz res Heq.
  assert (H : each_place (fun _ ev q => read_discipline ev q)
                [] (fst (deploy r))).
  { clear. run_cases r t res;
      walk_log_using
        ltac:(apply loop_read_discipline; [reflexivity | assumption]);
      try (intros cmd sz res Hev; discriminate Hev).
    all: intros cmd sz res Hev; inversion Hev; subst; clear Hev.
    all: first
      [ left; repeat split; auto using Nat.le_0_l; fail
      | right; repeat split; auto; eexists; reflexivity ]. }
  exact (each_place_at _ _ [] pre _ post H Heq cmd sz res eq_refl).
Qed.

Lemma healthy_completes r : healthy r -> snd (deploy r) = Ok tt.
Proof.
  intros [Hconn Hh].
  destruct (Hh build_cmd) as [Hb1 Hb2].
  destruct (Hh restart_cmd) as [Hr1 Hr2].
  destruct (Hh status_cmd) as [Hs1 Hs2].
  run_cases r t res; congruence.
Qed.

(** C6: a run that reaches the end of the script exits with code 0 whatever
    exit statuses the remote commands reported, and on a remote where
    nothing fails every run reaches the end; a build exit status that is
    not 0 is printed in its status line and the script goes on to issue the
    status query. *)
Theorem script_end_exits_zero :
  forall r : remote,
    (healthy r -> snd (deploy r) = Ok tt) /\
    (forall u : unit,
       snd (deploy r) = Ok u ->
       process_exit_code (snd (deploy r)) = Some 0%Z /\
       In (Print (build_exit_line (exit_status (exec r build_cmd))))
          (fst (deploy r)) /\
       issued status_cmd (fst (deploy r)) = 1%nat) /\
    (forall n : Z,
       In (RecvExit build_cmd n) (fst (deploy r)) ->
       n <> 0%Z ->
       In (Print (build_exit_line n)) (fst (deploy r)) /\
       issued status_cmd (fst (deploy r)) = 1%nat).
Proof.
  intros r. split; [apply healthy_completes | split].
  - intros u Hok. rewrite Hok. split; [reflexivity |].
    revert Hok. run_cases r t res; intros _;
      (split; [in_log | read_log; reflexivity]).
  - intros n Hin. apply (in_filtered is_recv_exit) in Hin; [| reflexivity].
    revert Hin. run_cases r t res; filter_log is_recv_exit; intros Hin;
      cbn [In] in Hin; repeat (destruct Hin as [Hin | Hin]);
      try contradiction; try discriminate Hin;
      inversion Hin; subst; clear Hin; intros Hn;
      try (exfalso; apply Hn; reflexivity);
      (split; [in_log | read_log; reflexivity]).
Qed.

Lemma status_round_trip :
  forall n : Z, (0 <= n <= 255)%Z -> int_of_digits 0 (str_of_int n) = n.
Proof.
  intros n Hn.
  assert (Hall : forallb
                   (fun k => (int_of_digits 0 (str_of_int (Z.of_nat k))
                              =? Z.of_nat k)%Z)
                   (seq 0 256) = true) by (vm_compute; reflexivity).
  rewrite forallb_forall in Hall.
  specialize (Hall (Z.to_nat n)).
  rewrite Z2Nat.id in Hall by lia.
  apply Z.eqb_eq, Hall, in_seq. lia.
Qed.

(** C7: for every exit status from 0 to 255 that the channel of a command
    reports, the status the script retrieves for that command is that value
    and the status line the script prints for it shows it: reading the
    printed digits back gives the reported value.  The script retrieves the
    status of the build and of the restart command. *)
Theorem exit_status_round_trip :
  forall (r : remote) (cmd : string) (n m : Z),
    (0 <= n <= 255)%Z ->
    exit_status (exec r cmd) = n ->
    In (RecvExit cmd m) (fst (deploy r)) ->
    m = n /\
    int_of_digits 0 (str_of_int m) = n /\
    ((cmd = build_cmd /\ In (Print (build_exit_line m)) (fst (deploy r))) \/
     (cmd = restart_cmd /\ In (Print (pm2_exit_line m)) (fst (deploy r)))).
Proof.
  intros r cmd n m Hn Hst Hin.
  assert (H : m = exit_status (exec r cmd) /\
              ((cmd = build_cmd /\
                In (Print (build_exit_line m)) (fst (deploy r))) \/
               (cmd = restart_cmd /\
                In (Print (pm2_exit_line m)) (fst (deploy r))))).
  { clear Hn Hst n.
    apply (in_filtered is_recv_exit) in Hin; [| reflexivity].
    revert Hin; run_cases r t res; filter_log is_recv_exit; intros Hin;
      cbn [In] in Hin; repeat (destruct Hin as [Hin | Hin]);
      try contradiction; try discriminate Hin;
      inversion Hin; subst; clear Hin; (split; [reflexivity |]);
      first [left; split; [reflexivity | in_log]
            | right; split; [reflexivity | in_log]]. }
  destruct H as [-> H]. rewrite Hst in *.
  repeat split; auto using status_round_trip.
Qed.

(** ** How the output is decoded *)

(** The output of the build reaches the console chunk by chunk: the text
    written is the decoding of each chunk of the stream on its own. *)
Lemma build_output_decoded_by_chunk :
  forall (r : remote) (n : Z),
    In (RecvExit build_cmd n) (fst (deploy r)) ->
    exists chunks : list bytes,
      chunked chunks /\
      concat chunks = stream_bytes (arrivals (exec r build_cmd)) /\
      streamed (fst (deploy r)) = concat (map Utf8.decode chunks).
Proof.
  intros r n Hin. apply (in_filtered is_recv_exit) in Hin; [| reflexivity].
  revert Hin. run_cases r t res; filter_log is_recv_exit; intros Hin;
    cbn [In] in Hin; repeat (destruct Hin as [Hin | Hin]);
    try contradiction; try discriminate Hin; clear Hin.
  all: match goal with
       | Hc : chunked ?cs |- _ =>
         exists cs; split; [exact Hc |]; split; [congruence |]
       end.
  all: unfold greeting, epilogue;
    repeat (rewrite ?streamed_app, ?streamed_loop; cbn [streamed app]);
    now rewrite ?app_nil_r.
Qed.

(** X9: the output of the restart and of the status command is decoded as
    a whole: what the one read returns is the whole stream, and its decoding
    is printed. *)
Lemma whole_output_decoded_at_once :
  forall (r : remote) (cmd : string) (data : bytes),
    In (Read cmd None (inr data)) (fst (deploy r)) ->
    data = stream_bytes (arrivals (exec r cmd)) /\
    In (Print (Utf8.decode data)) (fst (deploy r)).
Proof.
  intros r cmd data Hin.
  apply (in_filtered is_read_all) in Hin; [| reflexivity].
  revert Hin. run_cases r t res; filter_log is_read_all; intros Hin;
    cbn [In] in Hin; repeat (destruct Hin as [Hin | Hin]);
    try contradiction; try discriminate Hin;
    inversion Hin; subst; clear Hin; (split; [reflexivity | in_log]).
Qed.

(** ** Runs on particular remotes *)

Lemma calm_run :
  deploy calm =
  (greeting
     ++ [Print banner1; Exec build_cmd 720 None;
         Read build_cmd (Some chunk_size) (inr []);
         RecvExit build_cmd 0; Print (build_exit_line 0);
         Print banner2; Exec restart_cmd 30 None;
         Read restart_cmd None (inr []); Print (Utf8.decode []);
         RecvExit restart_cmd 0; Print (pm2_exit_line 0);
         Print banner3; Exec status_cmd 15 None;
         Read status_cmd None (inr []); Print (Utf8.decode []);
         Close; Print (lit "Done.")],
   Ok tt).
Proof. vm_compute. reflexivity. Qed.

Lemma failing_build_run :
  deploy failing_build =
  (greeting
     ++ [Print banner1; Exec build_cmd 720 None;
         Read build_cmd (Some chunk_size) (inr []);
         RecvExit build_cmd 1; Print (build_exit_line 1);
         Print build_failed;
         Print banner3; Exec status_cmd 15 None;
         Read status_cmd None (inr []); Print (Utf8.decode []);
         Close; Print (lit "Done.")],
   Ok tt).
Proof. vm_compute. reflexivity. Qed.

Lemma build_stalls_run :
  deploy build_stalls =
  (greeting
     ++ [Print banner1; Exec build_cmd 720 None;
         Read build_cmd (Some chunk_size) (inr (repeat "x"%byte 4096));
         Write (Utf8.decode (repeat "x"%byte 4096)); Flush;
         Read build_cmd (Some chunk_size) (inl CommandTimeout)],
   Raised CommandTimeout).
Proof. vm_compute. reflexivity. Qed.

(** C2 as stated fails: when the host cannot be reached the run ends in the
    error and the transport is never released. *)
Lemma close_skipped_when_connect_fails :
  snd (deploy unreachable) = Raised ConnectionError /\
  closes (fst (deploy unreachable)) <> 1%nat.
Proof. vm_compute. split; [reflexivity | discriminate]. Qed.

(** C5 as stated fails: the restart command delivers 4096 bytes and then
    stalls; the script asks for its whole output with one read without a
    size, which raises, and none of the bytes delivered reaches the
    console. *)
Lemma restart_output_not_streamed :
  stream_bytes (arrivals (exec restart_stalls restart_cmd))
    = repeat "x"%byte 4096 /\
  deploy restart_stalls =
  (greeting
     ++ [Print banner1; Exec build_cmd 720 None;
         Read build_cmd (Some chunk_size) (inr []);
         RecvExit build_cmd 0; Print (build_exit_line 0);
         Print banner2; Exec restart_cmd 30 None;
         Read restart_cmd None (inl CommandTimeout)],
   Raised CommandTimeout) /\
  ~ (forall (pre post : trace) (cmd : string) (sz : option nat)
            (res : fatal + bytes),
       fst (deploy restart_stalls) = pre ++ Read cmd sz res :: post ->
       sz = Some chunk_size).
Proof.
  split; [vm_compute; reflexivity |]. split; [vm_compute; reflexivity |].
  intros H.
  specialize (H (firstn 11 (fst (deploy restart_stalls))) []
                restart_cmd None (inl CommandTimeout)).
  assert (Hsz : @None nat = Some chunk_size)
    by (apply H; vm_compute; reflexivity).
  discriminate Hsz.
Qed.

(** C8 as stated fails: on a remote where nothing fails the script reads the
    output of the status query to the end and goes on to close the
    transport; the exit status of the status query is never retrieved. *)
Lemma status_exit_status_not_retrieved :
  snd (deploy calm) = Ok tt /\
  issued status_cmd (fst (deploy calm)) = 1%nat /\
  closes (fst (deploy calm)) = 1%nat /\
  filter is_recv_exit (fst (deploy calm))
    = [RecvExit build_cmd 0; RecvExit restart_cmd 0] /\
  ~ (forall (cmd : string) (timeout : Z),
       In (Exec cmd timeout None) (fst (deploy calm)) ->
       exists st : Z, In (RecvExit cmd st) (fst (deploy calm))).
Proof.
  repeat split; try (vm_compute; reflexivity).
  intros H. destruct (H status_cmd 15%Z) as [st Hin].
  - rewrite calm_run. cbn [fst]. in_log.
  - apply (in_filtered is_recv_exit) in Hin; [| reflexivity].
    vm_compute in Hin. destruct Hin as [Hin | [Hin | []]]; discriminate Hin.
Qed.

(** C3 at a build output of 4095 letters a followed by the two bytes of
    U+00E9: the first read returns 4096 bytes and cuts the sequence, and the
    script writes two replacement characters where decoding the whole
    stream gives the one character. *)
Theorem split_character_is_replaced :
  snd (deploy split_char) = Ok tt /\
  stream_bytes (arrivals (exec split_char build_cmd))
    = repeat "a"%byte 4095 ++ [xc3; xa9] /\
  streamed (fst (deploy split_char))
    = repeat 97%N 4095 ++ [Utf8.REPLACEMENT; Utf8.REPLACEMENT] /\
  Utf8.decode (stream_bytes (arrivals (exec split_char build_cmd)))
    = repeat 97%N 4095 ++ [0xE9%N] /\
  streamed (fst (deploy split_char))
    <> Utf8.decode (stream_bytes (arrivals (exec split_char build_cmd))).
Proof.
  repeat split; try (vm_compute; reflexivity).
  intros H. apply (f_equal (@length N)) in H. vm_compute in H. discriminate H.
Qed.

(** ** The theorems at particular remotes *)

Ltac by_running := vm_compute; reflexivity.

Lemma restart_gated_by_build_status_witness :
  In (RecvExit build_cmd 1) (fst (deploy failing_build)) /\
  (1%Z = exit_status (exec failing_build build_cmd) /\
   (issued restart_cmd (fst (deploy failing_build)) = 1%nat <-> 1%Z = 0%Z) /\
   (1%Z <> 0%Z ->
    issued restart_cmd (fst (deploy failing_build)) = 0%nat /\
    In (Print build_failed) (fst (deploy failing_build)))).
Proof.
  assert (H : In (RecvExit build_cmd 1) (fst (deploy failing_build))).
  { rewrite failing_build_run. cbn [fst]. in_log. }
  split; [exact H |].
  exact (restart_gated_by_build_status failing_build 1 H).
Defined.

Lemma status_query_once_and_step_order_witness :
  snd (deploy failing_build) = Ok tt /\
  issued status_cmd (fst (deploy failing_build)) = 1%nat /\
  execs (fst (deploy failing_build)) = [build_cmd; status_cmd].
Proof.
  assert (H : snd (deploy failing_build) = Ok tt) by by_running.
  split; [exact H |].
  exact (status_query_once_and_step_order failing_build tt H).
Defined.

Lemma output_read_discipline_witness :
  fst (deploy build_stalls) =
    firstn 6 (fst (deploy build_stalls))
      ++ Read build_cmd (Some chunk_size) (inr (repeat "x"%byte 4096))
      :: skipn 7 (fst (deploy build_stalls)) /\
  exists post',
    skipn 7 (fst (deploy build_stalls)) =
      Write (Utf8.decode (repeat "x"%byte 4096)) :: Flush :: post'.
Proof.
  assert (H : fst (deploy build_stalls) =
              firstn 6 (fst (deploy build_stalls))
                ++ Read build_cmd (Some chunk_size)
                     (inr (repeat "x"%byte 4096))
                :: skipn 7 (fst (deploy build_stalls))) by by_running.
  split; [exact H |].
  destruct (output_read_discipline build_stalls _ _ _ _ _ H)
    as [(_ & _ & _ & [Hempty | Hnext]) | ([Hcmd | Hcmd] & _)].
  - discriminate Hempty.
  - exact Hnext.
  - discriminate Hcmd.
  - discriminate Hcmd.
Defined.

Lemma script_end_exits_zero_witness :
  healthy failing_build /\
  snd (deploy failing_build) = Ok tt /\
  In (RecvExit build_cmd 1) (fst (deploy failing_build)) /\
  process_exit_code (snd (deploy failing_build)) = Some 0%Z /\
  In (Print (build_exit_line 1)) (fst (deploy failing_build)) /\
  issued status_cmd (fst (deploy failing_build)) = 1%nat.
Proof.
  assert (Hh : healthy failing_build).
  { split; [reflexivity |]. intros cmd. unfold failing_build, scripted, exec.
    destruct (String.eqb cmd build_cmd), (String.eqb cmd restart_cmd);
      split; reflexivity. }
  assert (Hin : In (RecvExit build_cmd 1) (fst (deploy failing_build))).
  { rewrite failing_build_run. cbn [fst]. in_log. }
  assert (Hn : 1%Z <> 0%Z) by discriminate.
  destruct (script_end_exits_zero failing_build) as (Hrun & Hend & Hgo).
  split; [exact Hh |]. split; [exact (Hrun Hh) |]. split; [exact Hin |].
  split; [exact (proj1 (Hend tt (Hrun Hh))) |].
  exact (Hgo 1%Z Hin Hn).
Defined.

Lemma exit_status_round_trip_witness :
  (0 <= 255 <= 255)%Z /\
  exit_status (exec restart_fails restart_cmd) = 255%Z /\
  In (RecvExit restart_cmd 255) (fst (deploy restart_fails)) /\
  int_of_digits 0 (str_of_int 255) = 255%Z /\
  In (Print (pm2_exit_line 255)) (fst (deploy restart_fails)).
Proof.
  assert (Hn : (0 <= 255 <= 255)%Z) by lia.
  assert (Hst : exit_status (exec restart_fails restart_cmd) = 255%Z)
    by reflexivity.
  assert (Hin : In (RecvExit restart_cmd 255) (fst (deploy restart_fails))).
  { vm_compute. do 13 right. left. reflexivity. }
  split; [exact Hn |]. split; [exact Hst |]. split; [exact Hin |].
  destruct (exit_status_round_trip restart_fails restart_cmd 255 255
              Hn Hst Hin) as (_ & Hback & [[Hcmd _] | [_ Hline]]).
  - discriminate Hcmd.
  - split; [exact Hback | exact Hline].
Defined.

Lemma exit_status_after_drain_witness :
  (fst (deploy calm) =
     firstn 7 (fst (deploy calm)) ++ RecvExit build_cmd 0
       :: skipn 8 (fst (deploy calm)) /\
   existsb (drained_by build_cmd) (firstn 7 (fst (deploy calm))) = true /\
   forallb (fun ev => negb (reads_of build_cmd ev))
     (skipn 8 (fst (deploy calm))) = true /\
   latest_exec (firstn 7 (fst (deploy calm))) = Some build_cmd) /\
  (fst (deploy calm) =
     firstn 19 (fst (deploy calm)) ++ Close :: skipn 20 (fst (deploy calm)) /\
   existsb (drained_by status_cmd) (firstn 19 (fst (deploy calm))) = true).
Proof.
  assert (H1 : fst (deploy calm) =
               firstn 7 (fst (deploy calm)) ++ RecvExit build_cmd 0
                 :: skipn 8 (fst (deploy calm))) by by_running.
  assert (H2 : fst (deploy calm) =
               firstn 19 (fst (deploy calm)) ++ Close
                 :: skipn 20 (fst (deploy calm))) by by_running.
  destruct (exit_status_after_drain calm) as (Hrecv & Hclose & _).
  split.
  - split; [exact H1 |]. exact (proj2 (Hrecv _ _ _ _ H1)).
  - split; [exact H2 |]. exact (Hclose _ _ H2).
Defined.

Lemma fatal_error_ends_run_witness :
  fst (deploy build_stalls) =
    firstn 9 (fst (deploy build_stalls))
      ++ [Read build_cmd (Some chunk_size) (inl CommandTimeout)] /\
  snd (deploy build_stalls) = Raised CommandTimeout /\
  console (fst (deploy build_stalls))
    = console (firstn 9 (fst (deploy build_stalls))).
Proof.
  assert (H : fst (deploy build_stalls) =
              firstn 9 (fst (deploy build_stalls))
                ++ [Read build_cmd (Some chunk_size) (inl CommandTimeout)])
    by by_running.
  split; [exact H |].
  destruct (fatal_error_ends_run build_stalls _ _ _ CommandTimeout H eq_refl)
    as (_ & Hres & Hconsole & _).
  split; [exact Hres | exact Hconsole].
Defined.

Lemma no_use_after_close_witness :
  fst (deploy calm) =
    firstn 19 (fst (deploy calm)) ++ Close :: [Print (lit "Done.")] /\
  closes (firstn 19 (fst (deploy calm))) = 0%nat /\
  forallb (fun ev => negb (session_op ev)) [Print (lit "Done.")] = true.
Proof.
  assert (H : fst (deploy calm) =
              firstn 19 (fst (deploy calm)) ++ Close :: [Print (lit "Done.")])
    by by_running.
  split; [exact H |].
  exact (no_use_after_close calm _ _ H).
Defined.


(** * More properties of the script *)

(** ** Decoding chunk by chunk *)

Lemma decode_strict_codes_app : forall (n : nat) (a : list N) (ta : text),
  (length a <= n)%nat ->
  decode_strict_codes a = Some ta ->
  forall b : list N,
    Utf8.decode_codes (a ++ b) = ta ++ Utf8.decode_codes b.
Proof.
  induction n as [| n IH]; intros a ta Hlen Ha b.
  - destruct a; [| cbn [length] in Hlen; lia].
    cbn in Ha. inversion Ha. reflexivity.
  - destruct a as [| ch s1]; [cbn in Ha; inversion Ha; reflexivity |].
    cbn [length] in Hlen.
    cbn [app Utf8.decode_codes]. cbn [decode_strict_codes] in Ha.
    destruct (ch <? 0x80)%N.
    { destruct (decode_strict_codes s1) as [t1 |] eqn:H1; [| discriminate].
      cbn in Ha. inversion Ha; subst. cbn [app]. f_equal.
      apply IH; [lia | assumption]. }
    destruct (ch <? 0xC2)%N; [discriminate |].
    destruct (ch <? 0xE0)%N.
    { destruct s1 as [| ch2 s2]; [discriminate |]. cbn [app length] in *.
      destruct (Utf8.is_continuation ch2); [| discriminate].
      destruct (decode_strict_codes s2) as [t2 |] eqn:H2; [| discriminate].
      cbn in Ha. inversion Ha; subst. cbn [app]. f_equal.
      apply IH; [lia | assumption]. }
    destruct (ch <? 0xF0)%N.
    { destruct s1 as [| ch2 s2]; [discriminate |]. cbn [app length] in *.
      destruct (negb (Utf8.is_continuation ch2)
                || (if (ch2 <? 0xA0)%N then (ch =? 0xE0)%N
                    else (ch =? 0xED)%N)); [discriminate |].
      destruct s2 as [| ch3 s3]; [discriminate |]. cbn [app length] in *.
      destruct (Utf8.is_continuation ch3); [| discriminate].
      destruct (decode_strict_codes s3) as [t3 |] eqn:H3; [| discriminate].
      cbn in Ha. inversion Ha; subst. cbn [app]. f_equal.
      apply IH; [lia | assumption]. }
    destruct (ch <? 0xF5)%N; [| discriminate].
    destruct s1 as [| ch2 s2]; [discriminate |]. cbn [app length] in *.
    destruct (negb (Utf8.is_continuation ch2)
              || (if (ch2 <? 0x90)%N then (ch =? 0xF0)%N
                  else (ch =? 0xF4)%N)); [discriminate |].
    destruct s2 as [| ch3 s3]; [discriminate |]. cbn [app length] in *.
    destruct (negb (Utf8.is_continuation ch3)); [discriminate |].
    destruct s3 as [| ch4 s4]; [discriminate |]. cbn [app length] in *.
    destruct (Utf8.is_continuation ch4); [| discriminate].
    destruct (decode_strict_codes s4) as [t4 |] eqn:H4; [| discriminate].
    cbn in Ha. inversion Ha; subst. cbn [app]. f_equal.
    apply IH; [lia | assumption].
Qed.

Transparent Utf8.decode.

Lemma decode_strict_app (a : bytes) (ta : text) :
  decode_strict a = Some ta ->
  forall b : bytes, Utf8.decode (a ++ b) = ta ++ Utf8.decode b.
Proof.
  unfold decode_strict, Utf8.decode. intros Ha b. rewrite map_app.
  now apply (decode_strict_codes_app (length (map Byte.to_N a))).
Qed.

Lemma decode_strict_sound (a : bytes) (ta : text) :
  decode_strict a = Some ta -> Utf8.decode a = ta.
Proof.
  intros Ha. pose proof (decode_strict_app a ta Ha []) as H.
  rewrite app_nil_r in H. rewrite H. unfold Utf8.decode. cbn.
  apply app_nil_r.
Qed.

Lemma decode_ascii (a : bytes) :
  Forall (fun b => (Byte.to_N b < 0x80)%N) a ->
  decode_strict a = Some (map Byte.to_N a).
Proof.
  unfold decode_strict. induction 1 as [| b a Hb _ IH]; [reflexivity |].
  cbn [map decode_strict_codes].
  apply N.ltb_lt in Hb. rewrite Hb, IH. reflexivity.
Qed.

Opaque Utf8.decode.

Lemma decode_chunks (chunks : list bytes) :
  Forall (fun c => decode_strict c <> None) chunks ->
  concat (map Utf8.decode chunks) = Utf8.decode (concat chunks).
Proof.
  induction 1 as [| c cs Hc _ IH]; [reflexivity |].
  cbn [map concat].
  destruct (decode_strict c) as [tc |] eqn:Hs; [| contradiction].
  rewrite (decode_strict_app c tc Hs), (decode_strict_sound c tc Hs), IH.
  reflexivity.
Qed.

(** ** The chunks a log shows *)

Lemma chunks_read_app cmd t1 t2 :
  chunks_read cmd (t1 ++ t2) = chunks_read cmd t1 ++ chunks_read cmd t2.
Proof.
  induction t1 as [| ev t1 IH]; [reflexivity |].
  destruct ev as [| | | c [sz |] [e | [| b bs]] | | | | |];
    cbn [app chunks_read]; try exact IH.
  destruct (String.eqb c cmd); [cbn [app]; f_equal |]; exact IH.
Qed.

Lemma chunks_read_loop cmd chunks :
  Forall (fun c => c <> []) chunks ->
  chunks_read cmd (loop_events cmd chunks) = chunks.
Proof.
  induction 1 as [| c cs Hc _ IH]; [reflexivity |].
  cbn [loop_events flat_map chunk_events app].
  destruct c as [| b bs]; [contradiction |].
  cbn [chunks_read]. rewrite String.eqb_refl. f_equal. exact IH.
Qed.

Lemma chunked_nonempty cs : chunked cs -> Forall (fun c => c <> []) cs.
Proof.
  intros H. apply chunked_Forall in H.
  eapply Forall_impl; [| exact H]. now intros c [Hc _].
Qed.

Ltac read_chunks :=
  unfold greeting, epilogue;
  repeat (rewrite ?chunks_read_app, ?streamed_app, ?streamed_loop,
                  ?chunks_read_loop by (apply chunked_nonempty; assumption);
          cbn [chunks_read streamed app]);
  rewrite ?app_nil_r.

Lemma build_chunks_read :
  forall (r : remote) (n : Z),
    In (RecvExit build_cmd n) (fst (deploy r)) ->
    chunked (chunks_read build_cmd (fst (deploy r))) /\
    concat (chunks_read build_cmd (fst (deploy r)))
      = stream_bytes (arrivals (exec r build_cmd)) /\
    streamed (fst (deploy r))
      = concat (map Utf8.decode (chunks_read build_cmd (fst (deploy r)))).
Proof.
  intros r n Hin. apply (in_filtered is_recv_exit) in Hin; [| reflexivity].
  revert Hin. run_cases r t res; filter_log is_recv_exit; intros Hin;
    cbn [In] in Hin; repeat (destruct Hin as [Hin | Hin]);
    try contradiction; try discriminate Hin; clear Hin.
  all: read_chunks; repeat split; auto.
Qed.

(** ** Which failure ends a run *)

Lemma fault_free_first_fault arr :
  fault_free arr = true <-> first_fault arr = None.
Proof.
  induction arr as [| [b bs | e] rest IH]; cbn; [tauto | exact IH |].
  split; discriminate.
Qed.

Lemma fill_inl size : forall pend buf e,
  fill size buf pend = inl e ->
  first_fault pend = Some e /\
  (length (buf ++ stream_bytes pend) < size)%nat.
Proof.
  induction pend as [| [b bs | e'] rest IH]; intros buf e H; cbn [fill] in H.
  - destruct (size <=? length buf)%nat; discriminate.
  - destruct (Nat.leb_spec size (length buf)); [discriminate |].
    apply IH in H. destruct H as [H1 H2]. split; [exact H1 |].
    cbn [stream_bytes]. rewrite <- app_assoc in H2. exact H2.
  - destruct (Nat.leb_spec size (length buf)); [discriminate |].
    inversion H; subst. split; [reflexivity |].
    cbn [stream_bytes]. now rewrite app_nil_r.
Qed.

Lemma fill_inr_first_fault size : forall pend buf buf' pend',
  fill size buf pend = inr (buf', pend') ->
  (length buf' < size)%nat -> first_fault pend = None.
Proof.
  induction pend as [| [b bs | e] rest IH]; intros buf buf' pend' H Hlt;
    cbn [fill] in H.
  - reflexivity.
  - destruct (Nat.leb_spec size (length buf)).
    + inversion H; subst. lia.
    + cbn [first_fault]. eapply IH; eassumption.
  - destruct (Nat.leb_spec size (length buf)); [| discriminate].
    inversion H; subst. lia.
Qed.

Lemma fill_inr_same_fault size : forall pend buf buf' pend',
  fill size buf pend = inr (buf', pend') ->
  pend' <> [] -> first_fault pend' = first_fault pend.
Proof.
  induction pend as [| [b bs | e] rest IH]; intros buf buf' pend' H Hne;
    cbn [fill] in H.
  - destruct (size <=? length buf)%nat; inversion H; subst; contradiction.
  - destruct (Nat.leb_spec size (length buf)).
    + inversion H; subst. reflexivity.
    + cbn [first_fault]. eapply IH; eassumption.
  - destruct (Nat.leb_spec size (length buf)); [| discriminate].
    inversion H; subst. reflexivity.
Qed.

Lemma drain_first_fault : forall pend buf,
  drain buf pend =
  match first_fault pend with
  | Some e => inl e
  | None => inr (buf ++ stream_bytes pend)
  end.
Proof.
  induction pend as [| [b bs | e] rest IH]; intros buf; cbn.
  - now rewrite app_nil_r.
  - rewrite IH. destruct (first_fault rest); [reflexivity |].
    now rewrite <- app_assoc.
  - reflexivity.
Qed.

(** How the streaming loop ends: at the end of a stream that does not fail,
    or in the first failure of the stream, and then fewer bytes than one
    chunk have been taken from the channel without being handed out. *)
Lemma stream_loop_outcome : forall fuel f,
  (available f < fuel)%nat ->
  match snd (stream_loop fuel f) with
  | Ok f' =>
    first_fault (pending f) = None /\
    fcmd f' = fcmd f /\ fstatus f' = fstatus f
  | Raised e =>
    first_fault (pending f) = Some e /\
    exists rest : bytes,
      rbuffer f ++ stream_bytes (pending f)
        = concat (chunks_read (fcmd f) (fst (stream_loop fuel f))) ++ rest /\
      (length rest < chunk_size)%nat
  | OutOfFuel => False
  end.
Proof.
  induction fuel as [| fuel IH]; intros f Hlt; [lia |].
  rewrite stream_loop_unfold.
  destruct (fill chunk_size (rbuffer f) (pending f)) as [e | [buf pend]]
    eqn:Hfill.
  - apply fill_inl in Hfill. destruct Hfill as [Hff Hshort].
    cbn [fst snd chunks_read concat app]. split; [exact Hff |].
    eexists. split; [reflexivity | exact Hshort].
  - pose proof (fill_inr _ _ _ _ _ Hfill) as (Hbytes & Hsize & Heof & _).
    destruct (firstn chunk_size buf) as [| x c] eqn:Hchunk.
    + cbn [snd fcmd fstatus]. repeat split.
      pose proof chunk_size_pos as Hpos.
      assert (Hb : buf = []).
      { destruct buf as [| y buf]; [reflexivity |].
        remember chunk_size as k. destruct k; [lia | discriminate]. }
      subst buf. eapply fill_inr_first_fault; [exact Hfill | exact Hpos].
    + cbv zeta.
      set (f1 := {| fcmd := fcmd f; rbuffer := skipn chunk_size buf;
                    pending := pend; fstatus := fstatus f |}).
      assert (Hlen : (length (x :: c) = Nat.min chunk_size (length buf))%nat)
        by (rewrite <- Hchunk; apply length_firstn).
      assert (Hsk : (length (skipn chunk_size buf)
                     = length buf - chunk_size)%nat) by apply length_skipn.
      cbn [length] in Hlen.
      assert (Hav : (available f1 < fuel)%nat).
      { unfold available in *. subst f1. cbn [rbuffer pending]. lia. }
      assert (Hsplit : buf = (x :: c) ++ skipn chunk_size buf)
        by (rewrite <- Hchunk; symmetry; apply firstn_skipn).
      assert (Hsame : first_fault pend = first_fault (pending f)).
      { destruct pend as [| a pend'] eqn:Hp.
        - destruct (Nat.lt_ge_cases (length buf) chunk_size) as [Hs | Hs].
          + symmetry. eapply fill_inr_first_fault; eassumption.
          + clear - Hfill. revert Hfill. generalize (rbuffer f).
            induction (pending f) as [| [b bs | e] rest IHp]; intros b0 H;
              cbn [fill] in H.
            * reflexivity.
            * destruct (chunk_size <=? length b0)%nat; [discriminate |].
              cbn [first_fault]. eapply IHp; eassumption.
            * destruct (chunk_size <=? length b0)%nat; discriminate.
        - eapply fill_inr_same_fault; [exact Hfill | discriminate]. }
      specialize (IH f1 Hav). cbn [fst snd].
      destruct (snd (stream_loop fuel f1)) as [f' | e |].
      * destruct IH as (H1 & H2 & H3). subst f1. cbn [pending fcmd fstatus] in *.
        repeat split; congruence.
      * destruct IH as (H1 & rest & H2 & H3). subst f1.
        cbn [pending fcmd rbuffer] in *.
        split; [congruence |]. exists rest. split; [| exact H3].
        rewrite chunks_read_app.
        cbn [chunk_events chunks_read app]. rewrite String.eqb_refl.
        cbn [app concat]. rewrite <- app_assoc, <- H2, <- Hbytes.
        rewrite Hsplit at 1. now rewrite <- app_assoc.
      * exact IH.
Qed.

Lemma step1_outcome r :
  snd (step1 r) =
  match channel_fault (exec r build_cmd) with
  | Some e => Raised e
  | None => Ok (exit_status (exec r build_cmd))
  end.
Proof.
  unfold step1, exec_command, channel_fault. rewrite !snd_bind.
  destruct (open_fault (exec r build_cmd)) as [e |]; [reflexivity |].
  run_script.
  set (f := {| fcmd := build_cmd; rbuffer := [];
               pending := arrivals (exec r build_cmd);
               fstatus := exit_status (exec r build_cmd) |}).
  pose proof (stream_loop_outcome (S (available f)) f
                (Nat.lt_succ_diag_r _)) as H.
  rewrite !snd_bind.
  destruct (snd (stream_loop (S (available f)) f)) as [f' | e |];
    [| | contradiction].
  - destruct H as (H1 & _ & H3). subst f. cbn [pending fstatus] in *.
    rewrite H1. unfold recv_exit_status. run_script. now rewrite H3.
  - destruct H as (H1 & _). subst f. cbn [pending] in *. now rewrite H1.
Qed.

Lemma read_all_outcome r cmd timeout (k : bytes * file -> M unit) :
  (forall x, exists t, k x = (t, Ok tt)) ->
  snd (f <- exec_command r cmd timeout ;; x <- read None f ;; k x) =
  match channel_fault (exec r cmd) with
  | Some e => Raised e
  | None => Ok tt
  end.
Proof.
  intros Hk. unfold exec_command, channel_fault, read. rewrite !snd_bind.
  destruct (open_fault (exec r cmd)) as [e |]; [reflexivity |].
  run_script. rewrite drain_first_fault.
  destruct (first_fault (arrivals (exec r cmd))) as [e |]; [reflexivity |].
  run_script.
  match goal with |- context [k ?x] => destruct (Hk x) as [t ->] end.
  reflexivity.
Qed.

Lemma step2_outcome r :
  snd (step2 r) =
  match channel_fault (exec r restart_cmd) with
  | Some e => Raised e
  | None => Ok tt
  end.
Proof.
  unfold step2. rewrite snd_bind. cbn [print emit snd].
  apply read_all_outcome. intros [data f]. eexists. reflexivity.
Qed.

Lemma step3_outcome r :
  snd (step3 r) =
  match channel_fault (exec r status_cmd) with
  | Some e => Raised e
  | None => Ok tt
  end.
Proof.
  unfold step3. rewrite snd_bind. cbn [print emit snd].
  apply read_all_outcome. intros [data f]. eexists. reflexivity.
Qed.

(** X1: a run ends in the first thing that goes wrong on the remote, taken
    in the order of the script: the connection, the build, the restart when
    the build exits with 0, the status query; it reaches the end of the
    script exactly when none of them fails.  A restart that would fail does
    not matter when the build exits with another status. *)
Theorem run_ends_in_first_failure :
  forall r : remote,
    snd (deploy r) =
    match first_failure r with
    | Some e => Raised e
    | None => Ok tt
    end.
Proof.
  intros r. unfold deploy, pipeline, connect, first_failure.
  rewrite !snd_bind. cbn [set_missing_host_key_policy print emit snd].
  destruct (connect_fault r) as [e |]; [reflexivity |].
  cbn [ret snd]. rewrite step1_outcome.
  destruct (channel_fault (exec r build_cmd)) as [e |]; [reflexivity |].
  destruct (exit_status (exec r build_cmd) =? 0)%Z.
  - rewrite !snd_bind, step2_outcome.
    destruct (channel_fault (exec r restart_cmd)) as [e |]; [reflexivity |].
    rewrite step3_outcome.
    destruct (channel_fault (exec r status_cmd)); reflexivity.
  - rewrite !snd_bind. cbn [print emit snd]. rewrite step3_outcome.
    destruct (channel_fault (exec r status_cmd)); reflexivity.
Qed.

(** ** What is shown of the build output *)

Lemma step1_streamed r :
  streamed (fst (step1 r))
  = concat (map Utf8.decode (chunks_read build_cmd (fst (step1 r)))).
Proof.
  pose proof (step1_sound r) as H.
  remember (fst (step1 r)) as t eqn:Ht.
  remember (snd (step1 r)) as res eqn:Hres. clear Ht Hres.
  destruct H; read_chunks; reflexivity.
Qed.

Lemma step1_lost r e :
  open_fault (exec r build_cmd) = None ->
  snd (step1 r) = Raised e ->
  exists rest : bytes,
    stream_bytes (arrivals (exec r build_cmd))
      = concat (chunks_read build_cmd (fst (step1 r))) ++ rest /\
    (length rest < chunk_size)%nat.
Proof.
  intros Hopen. unfold step1, exec_command. rewrite Hopen. run_script.
  set (f := {| fcmd := build_cmd; rbuffer := [];
               pending := arrivals (exec r build_cmd);
               fstatus := exit_status (exec r build_cmd) |}).
  pose proof (stream_loop_outcome (S (available f)) f
                (Nat.lt_succ_diag_r _)) as H.
  destruct (stream_loop (S (available f)) f) as [tl [f' | e' |]];
    cbn [fst snd] in H; [| | contradiction].
  - unfold recv_exit_status. run_script. discriminate.
  - run_script. intros _. destruct H as (_ & rest & H2 & H3).
    exists rest. split; [| exact H3].
    subst f. cbn [rbuffer pending fcmd app] in H2.
    cbn [chunks_read]. exact H2.
Qed.

Lemma deploy_log_build_raised r e :
  connect_fault r = None ->
  snd (step1 r) = Raised e ->
  fst (deploy r) = greeting ++ fst (step1 r).
Proof.
  intros Hc Hs.
  unfold deploy, pipeline, connect, set_missing_host_key_policy, greeting.
  rewrite Hc. destruct (step1 r) as [t1 res1]. cbn [fst snd] in *. subst res1.
  run_script. reflexivity.
Qed.

Lemma fault_free_false arr :
  fault_free arr = false -> exists e, first_fault arr = Some e.
Proof.
  intros H. destruct (first_fault arr) as [e |] eqn:Hf; [eauto |].
  apply fault_free_first_fault in Hf. congruence.
Qed.

(** X2: when a read of the build output raises, the console has the
    decoding, chunk by chunk, of the chunks read before, and these are all
    the bytes the build delivered before the failure but for fewer than 4096
    at the end, which were taken from the channel and never shown. *)
Theorem build_failure_loses_less_than_a_chunk :
  forall (r : remote) (e : fatal),
    In (Read build_cmd (Some chunk_size) (inl e)) (fst (deploy r)) ->
    exists rest : bytes,
      stream_bytes (arrivals (exec r build_cmd))
        = concat (chunks_read build_cmd (fst (deploy r))) ++ rest /\
      (length rest < chunk_size)%nat /\
      streamed (fst (deploy r))
        = concat (map Utf8.decode (chunks_read build_cmd (fst (deploy r)))).
Proof.
  intros r e Hin.
  assert (F : connect_fault r = None /\
              open_fault (exec r build_cmd) = None /\
              fault_free (arrivals (exec r build_cmd)) = false).
  { apply (in_filtered is_failed_read) in Hin; [| reflexivity].
    revert Hin. run_cases r t res; filter_log is_failed_read; intros Hin;
      cbn [In] in Hin; repeat (destruct Hin as [Hin | Hin]);
      try contradiction; try discriminate Hin; auto. }
  destruct F as (Hc & Hopen & Hff).
  destruct (fault_free_false _ Hff) as [e0 He0].
  assert (Hs : snd (step1 r) = Raised e0).
  { rewrite step1_outcome. unfold channel_fault. now rewrite Hopen, He0. }
  destruct (step1_lost r e0 Hopen Hs) as (rest & Hbytes & Hshort).
  exists rest. rewrite (deploy_log_build_raised r e0 Hc Hs).
  unfold greeting. rewrite chunks_read_app, streamed_app.
  cbn [chunks_read streamed app].
  split; [exact Hbytes |]. split; [exact Hshort | apply step1_streamed].
Qed.

(** X3: in a run in which the build reports its exit status, the chunks the
    loop read are the output of the build cut into blocks of 4096 bytes:
    put together they are the whole stream, none is empty and all but the
    last have exactly 4096 bytes; the text written to the console is the
    decoding of each chunk on its own, in order. *)
Theorem build_output_read_in_blocks :
  forall (r : remote) (n : Z),
    In (RecvExit build_cmd n) (fst (deploy r)) ->
    chunked (chunks_read build_cmd (fst (deploy r))) /\
    concat (chunks_read build_cmd (fst (deploy r)))
      = stream_bytes (arrivals (exec r build_cmd)) /\
    streamed (fst (deploy r))
      = concat (map Utf8.decode (chunks_read build_cmd (fst (deploy r)))).
Proof. exact build_chunks_read. Qed.

(** X4: in a run in which the build reports its exit status, if every chunk
    the loop read is well-formed UTF-8 on its own, that is, no byte is
    invalid and no sequence is cut by the end of a chunk, then the text
    written to the console is the decoding of the whole output of the
    build. *)
Theorem well_formed_chunks_shown_faithfully :
  forall (r : remote) (n : Z),
    In (RecvExit build_cmd n) (fst (deploy r)) ->
    (forall c : bytes,
       In c (chunks_read build_cmd (fst (deploy r))) ->
       decode_strict c <> None) ->
    streamed (fst (deploy r))
      = Utf8.decode (stream_bytes (arrivals (exec r build_cmd))).
Proof.
  intros r n Hin Hwf.
  destruct (build_chunks_read r n Hin) as (_ & Hcat & Hstr).
  rewrite Hstr, <- Hcat. apply decode_chunks.
  apply Forall_forall. exact Hwf.
Qed.

(** X5: in a run in which the build reports its exit status, if the output
    of the build is plain ASCII, the text written to the console is that
    output, byte for code point, wherever the chunks end. *)
Theorem ascii_build_output_shown_as_is :
  forall (r : remote) (n : Z),
    In (RecvExit build_cmd n) (fst (deploy r)) ->
    Forall (fun b => (Byte.to_N b < 0x80)%N)
      (stream_bytes (arrivals (exec r build_cmd))) ->
    streamed (fst (deploy r))
      = map Byte.to_N (stream_bytes (arrivals (exec r build_cmd))).
Proof.
  intros r n Hin Hascii.
  destruct (build_chunks_read r n Hin) as (_ & Hcat & Hstr).
  rewrite Hstr, <- Hcat. rewrite <- Hcat in Hascii.
  rewrite decode_chunks.
  - apply decode_strict_sound, decode_ascii, Hascii.
  - apply Forall_concat in Hascii.
    eapply Forall_impl; [| exact Hascii].
    intros c Hc. rewrite (decode_ascii c Hc). discriminate.
Qed.

(** ** What precedes and what follows an operation *)

Lemma each_place_after Q : forall a p0,
  (forall ev p q, In ev a -> incl p0 p -> Q p ev q) -> each_place Q p0 a.
Proof.
  induction a as [| x a IH]; intros p0 H; [exact I |].
  split.
  - apply H; [now left | apply incl_refl].
  - apply IH. intros ev p q Hin Hincl. apply H; [now right |].
    intros y Hy. apply Hincl, in_or_app. now left.
Qed.

Ltac open_faults :=
  repeat match goal with
  | H : open_fault _ = _ |- _ => rewrite H; clear H
  end.

(** X6: right after the exit status of the build is retrieved the script
    prints the status line of the build and then takes one of two ways: for
    status 0 it prints the banner of step 2 and issues the restart; for any
    other status it prints the build-failed line and goes on with the
    banner of step 3 and the status query. *)
Theorem gate_follows_build_status :
  forall (r : remote) (pre post : trace) (n : Z),
    fst (deploy r) = pre ++ RecvExit build_cmd n :: post ->
    exists post' : trace,
      post =
      Print (build_exit_line n)
      :: (if (n =? 0)%Z
          then Print banner2
               :: Exec restart_cmd 30 (open_fault (exec r restart_cmd))
               :: post'
          else Print build_failed
               :: Print banner3
               :: Exec status_cmd 15 (open_fault (exec r status_cmd))
               :: post').
Proof.
  intros r pre post n Heq.
  assert (H : each_place
                (fun _ ev q => forall n : Z,
                   ev = RecvExit build_cmd n ->
                   exists post' : trace,
                     q =
                     Print (build_exit_line n)
                     :: (if (n =? 0)%Z
                         then Print banner2
                              :: Exec restart_cmd 30
                                   (open_fault (exec r restart_cmd))
                              :: post'
                         else Print build_failed
                              :: Print banner3
                              :: Exec status_cmd 15
                                   (open_fault (exec r status_cmd))
                              :: post'))
                [] (fst (deploy r))).
  { clear. run_cases r t res; walk_log; try other_event.
    all: intros n Hev; inversion Hev; subst; clear Hev.
    all: rewrite ?Z.eqb_refl;
      try match goal with
          | H : _ <> 0%Z |- _ => apply Z.eqb_neq in H; rewrite H
          end;
      try match goal with
          | H : exit_status _ = 0%Z |- _ => rewrite ?H
          end.
    all: open_faults; cbn [app]; eexists; reflexivity. }
  exact (each_place_at _ _ [] pre _ post H Heq n eq_refl).
Qed.

Ltac loop_after tac :=
  apply each_place_after;
  let ev := fresh "ev" in
  let Hev := fresh "Hev" in
  let Hincl := fresh "Hincl" in
  intros ev ? ? Hev Hincl; apply in_loop_events in Hev;
  destruct Hev as (? & _ & [-> | [-> | ->]]); cbn beta iota;
  [tac Hincl | exact I | exact I].

(** X7: the script sets the host key policy first and then connects, once,
    to the fixed host with the fixed user, password and a timeout of 15
    seconds; it issues a command, reads output, asks for an exit status or
    closes the transport only after [connect] has returned without an
    error. *)
Theorem nothing_before_connect :
  forall (r : remote) (pre post : trace) (ev : event),
    fst (deploy r) = pre ++ ev :: post ->
    match ev with
    | SetPolicy => pre = []
    | Connect host user pass timeout res =>
      pre = [SetPolicy; Print (lit "Connecting to VPS...")] /\
      host = hostname /\ user = username /\ pass = password /\
      timeout = 15%Z /\ res = connect_fault r
    | Exec _ _ _ | Read _ _ _ | RecvExit _ _ | Close =>
      In (Connect hostname username password 15 None) pre
    | Print _ | Write _ | Flush => True
    end.
Proof.
  intros r pre post ev Heq.
  assert (H : each_place
                (fun p ev _ =>
                   match ev with
                   | SetPolicy => p = []
                   | Connect host user pass timeout res =>
                     p = [SetPolicy; Print (lit "Connecting to VPS...")] /\
                     host = hostname /\ user = username /\
                     pass = password /\
                     timeout = 15%Z /\ res = connect_fault r
                   | Exec _ _ _ | Read _ _ _ | RecvExit _ _ | Close =>
                     In (Connect hostname username password 15 None) p
                   | Print _ | Write _ | Flush => True
                   end)
                [] (fst (deploy r))).
  { clear. run_cases r t res;
      walk_log_using
        ltac:(loop_after ltac:(fun Hincl => apply Hincl; in_log));
      try reflexivity; try in_log; auto. }
  exact (each_place_at _ _ [] pre ev post H Heq).
Qed.

(** X8: the script issues three commands only, the build with a timeout of
    720 seconds, the restart with 30 and the status query with 15, and each
    at most once; it reads the output of a command, or asks for its exit
    status, only after the channel of that command has opened without an
    error. *)
Theorem only_opened_channels_are_used :
  forall (r : remote) (pre post : trace) (ev : event),
    fst (deploy r) = pre ++ ev :: post ->
    match ev with
    | Exec cmd timeout res =>
      res = open_fault (exec r cmd) /\
      issued cmd pre = 0%nat /\
      ((cmd = build_cmd /\ timeout = 720%Z) \/
       (cmd = restart_cmd /\ timeout = 30%Z) \/
       (cmd = status_cmd /\ timeout = 15%Z))
    | Read cmd _ _ | RecvExit cmd _ =>
      exists timeout : Z, In (Exec cmd timeout None) pre
    | _ => True
    end.
Proof.
  intros r pre post ev Heq.
  assert (H : each_place
                (fun p ev _ =>
                   match ev with
                   | Exec cmd timeout res =>
                     res = open_fault (exec r cmd) /\
                     issued cmd p = 0%nat /\
                     ((cmd = build_cmd /\ timeout = 720%Z) \/
                      (cmd = restart_cmd /\ timeout = 30%Z) \/
                      (cmd = status_cmd /\ timeout = 15%Z))
                   | Read cmd _ _ | RecvExit cmd _ =>
                     exists timeout : Z, In (Exec cmd timeout None) p
                   | _ => True
                   end)
                [] (fst (deploy r))).
  { clear. run_cases r t res;
      walk_log_using
        ltac:(loop_after
                ltac:(fun Hincl => exists 720%Z; apply Hincl; in_log));
      try (exists 720%Z; in_log; fail); try (exists 30%Z; in_log; fail);
      try (exists 15%Z; in_log; fail); try (symmetry; assumption); auto 6.
    all: read_log; reflexivity. }
  exact (each_place_at _ _ [] pre ev post H Heq).
Qed.

(** ** The console of a run *)

Lemma console_loop cmd chunks :
  console (loop_events cmd chunks) = concat (map Utf8.decode chunks).
Proof.
  induction chunks as [| c cs IH]; [reflexivity |].
  cbn [loop_events flat_map chunk_events app console map concat].
  f_equal. exact IH.
Qed.

(** X10: a run reaches the end of the script exactly when its log ends with
    the release of the transport followed by the print of the last line;
    in a run that ends in a fatal error that line is not printed after a
    release. *)
Theorem done_printed_last_iff_completed :
  forall r : remote,
    snd (deploy r) = Ok tt <->
    exists pre : trace, fst (deploy r) = pre ++ [Close; Print (lit "Done.")].
Proof.
  intros r. run_cases r t res; (split; [intros Hok | intros [pre Hlog]]);
    try discriminate Hok; try reflexivity.
  all: try (exfalso; apply (f_equal closes) in Hlog; revert Hlog; read_log;
            cbn [closes]; lia).
  all: cbn [epilogue]; rewrite !app_assoc; eexists; reflexivity.
Qed.

(** X11: the console of a run that reaches the end of the script: the two
    lines of the connection, the banner of step 1, the build output as the
    loop wrote it, the status line of the build, then for status 0 the banner
    of step 2, the restart output decoded as a whole and its status line, and
    for any other status the build-failed line, then the banner of step 3,
    the output of the status query decoded as a whole, and the last line. *)
Theorem console_of_complete_run :
  forall r : remote,
    snd (deploy r) = Ok tt ->
    console (fst (deploy r)) =
      lit "Connecting to VPS..." ++ nl ++
      lit "Connected." ++ nl ++ nl ++
      banner1 ++ nl ++
      streamed (fst (deploy r)) ++
      build_exit_line (exit_status (exec r build_cmd)) ++ nl ++
      (if (exit_status (exec r build_cmd) =? 0)%Z
       then banner2 ++ nl ++
            Utf8.decode (stream_bytes (arrivals (exec r restart_cmd))) ++ nl ++
            pm2_exit_line (exit_status (exec r restart_cmd)) ++ nl
       else build_failed ++ nl) ++
      banner3 ++ nl ++
      Utf8.decode (stream_bytes (arrivals (exec r status_cmd))) ++ nl ++
      lit "Done." ++ nl.
Proof.
  intros r. run_cases r t res; intros _; rewrite ?Z.eqb_refl;
    try match goal with
        | H : _ <> 0%Z |- _ => apply Z.eqb_neq in H; rewrite H
        end;
    unfold greeting, epilogue;
    repeat (rewrite ?console_app, ?streamed_app, ?console_loop,
                    ?streamed_loop;
            cbn [console streamed app]);
    rewrite <- ?app_assoc, ?app_nil_r, ?app_nil_l; reflexivity.
Qed.

(** ** The further theorems at particular remotes *)

Lemma build_failure_loses_less_than_a_chunk_witness :
  In (Read build_cmd (Some chunk_size) (inl CommandTimeout))
     (fst (deploy build_stalls)) /\
  exists rest : bytes,
    stream_bytes (arrivals (exec build_stalls build_cmd))
      = concat (chunks_read build_cmd (fst (deploy build_stalls))) ++ rest /\
    (length rest < chunk_size)%nat /\
    streamed (fst (deploy build_stalls))
      = concat (map Utf8.decode
                  (chunks_read build_cmd (fst (deploy build_stalls)))).
Proof.
  assert (H : In (Read build_cmd (Some chunk_size) (inl CommandTimeout))
                 (fst (deploy build_stalls))).
  { rewrite build_stalls_run. cbn [fst]. in_log. }
  split; [exact H |].
  exact (build_failure_loses_less_than_a_chunk build_stalls CommandTimeout H).
Defined.

Lemma accented_reports :
  In (RecvExit build_cmd 0) (fst (deploy accented)).
Proof. vm_compute. do 10 right. left. reflexivity. Defined.

Lemma plain_reports :
  In (RecvExit build_cmd 0) (fst (deploy plain)).
Proof. vm_compute. do 10 right. left. reflexivity. Defined.

Lemma build_output_read_in_blocks_witness :
  In (RecvExit build_cmd 0) (fst (deploy accented)) /\
  chunked (chunks_read build_cmd (fst (deploy accented))) /\
  concat (chunks_read build_cmd (fst (deploy accented)))
    = stream_bytes (arrivals (exec accented build_cmd)).
Proof.
  split; [exact accented_reports |].
  destruct (build_output_read_in_blocks accented 0 accented_reports)
    as (Hck & Hcat & _).
  split; [exact Hck | exact Hcat].
Defined.

Lemma well_formed_chunks_shown_faithfully_witness :
  In (RecvExit build_cmd 0) (fst (deploy accented)) /\
  (forall c : bytes,
     In c (chunks_read build_cmd (fst (deploy accented))) ->
     decode_strict c <> None) /\
  streamed (fst (deploy accented))
    = Utf8.decode (stream_bytes (arrivals (exec accented build_cmd))).
Proof.
  assert (Hwf : forall c : bytes,
            In c (chunks_read build_cmd (fst (deploy accented))) ->
            decode_strict c <> None).
  { intros c Hc. vm_compute in Hc. destruct Hc as [<- | []].
    vm_compute. discriminate. }
  split; [exact accented_reports |]. split; [exact Hwf |].
  exact (well_formed_chunks_shown_faithfully accented 0 accented_reports Hwf).
Defined.

Lemma ascii_build_output_shown_as_is_witness :
  In (RecvExit build_cmd 0) (fst (deploy plain)) /\
  Forall (fun b => (Byte.to_N b < 0x80)%N)
    (stream_bytes (arrivals (exec plain build_cmd))) /\
  streamed (fst (deploy plain)) = [111%N; 107%N].
Proof.
  assert (Hascii : Forall (fun b => (Byte.to_N b < 0x80)%N)
                     (stream_bytes (arrivals (exec plain build_cmd)))).
  { vm_compute. repeat constructor. }
  split; [exact plain_reports |]. split; [exact Hascii |].
  exact (ascii_build_output_shown_as_is plain 0 plain_reports Hascii).
Defined.

Lemma gate_follows_build_status_witness :
  fst (deploy failing_build) =
    firstn 7 (fst (deploy failing_build)) ++ RecvExit build_cmd 1
      :: skipn 8 (fst (deploy failing_build)) /\
  exists post' : trace,
    skipn 8 (fst (deploy failing_build)) =
      Print (build_exit_line 1) :: Print build_failed :: Print banner3
      :: Exec status_cmd 15 None :: post'.
Proof.
  assert (H : fst (deploy failing_build) =
              firstn 7 (fst (deploy failing_build)) ++ RecvExit build_cmd 1
                :: skipn 8 (fst (deploy failing_build))) by by_running.
  split; [exact H |].
  exact (gate_follows_build_status failing_build _ _ 1 H).
Defined.

Lemma nothing_before_connect_witness :
  fst (deploy calm) =
    firstn 5 (fst (deploy calm)) ++ Exec build_cmd 720 None
      :: skipn 6 (fst (deploy calm)) /\
  In (Connect hostname username password 15 None)
     (firstn 5 (fst (deploy calm))).
Proof.
  assert (H : fst (deploy calm) =
              firstn 5 (fst (deploy calm)) ++ Exec build_cmd 720 None
                :: skipn 6 (fst (deploy calm))) by by_running.
  split; [exact H |].
  exact (nothing_before_connect calm _ _ _ H).
Defined.

Lemma only_opened_channels_are_used_witness :
  fst (deploy calm) =
    firstn 11 (fst (deploy calm)) ++ Read restart_cmd None (inr [])
      :: skipn 12 (fst (deploy calm)) /\
  exists timeout : Z,
    In (Exec restart_cmd timeout None) (firstn 11 (fst (deploy calm))).
Proof.
  assert (H : fst (deploy calm) =
              firstn 11 (fst (deploy calm)) ++ Read restart_cmd None (inr [])
                :: skipn 12 (fst (deploy calm))) by by_running.
  split; [exact H |].
  exact (only_opened_channels_are_used calm _ _ _ H).
Defined.

Lemma whole_output_decoded_at_once_witness :
  In (Read restart_cmd None (inr ["u"%byte; "p"%byte]))
     (fst (deploy plain)) /\
  ["u"%byte; "p"%byte] = stream_bytes (arrivals (exec plain restart_cmd)) /\
  In (Print (Utf8.decode ["u"%byte; "p"%byte])) (fst (deploy plain)).
Proof.
  assert (H : In (Read restart_cmd None (inr ["u"%byte; "p"%byte]))
                 (fst (deploy plain))).
  { vm_compute. do 14 right. left. reflexivity. }
  split; [exact H |].
  exact (whole_output_decoded_at_once plain restart_cmd _ H).
Defined.

Lemma done_printed_last_iff_completed_witness :
  snd (deploy calm) = Ok tt /\
  exists pre : trace, fst (deploy calm) = pre ++ [Close; Print (lit "Done.")].
Proof.
  assert (H : snd (deploy calm) = Ok tt) by by_running.
  split; [exact H |].
  exact (proj1 (done_printed_last_iff_completed calm) H).
Defined.

Lemma console_of_complete_run_witness :
  snd (deploy plain) = Ok tt /\
  console (fst (deploy plain)) =
    lit "Connecting to VPS..." ++ nl ++
    lit "Connected." ++ nl ++ nl ++
    banner1 ++ nl ++
    lit "ok" ++
    build_exit_line 0 ++ nl ++
    banner2 ++ nl ++ lit "up" ++ nl ++ pm2_exit_line 0 ++ nl ++
    banner3 ++ nl ++ lit "on" ++ nl ++
    lit "Done." ++ nl.
Proof.
  assert (H : snd (deploy plain) = Ok tt) by by_running.
  split; [exact H |].
  rewrite (console_of_complete_run plain H). by_running.
Defined.
